(** * jheatmap readers: matrix assembly of [TsvMatrixReader] and [CdmMatrixReader]

    A shallow embedding of the two matrix readers of [jheatmap.readers]
    (the part of their [success] callback that runs once the file has been
    split into a header and records), with the properties of the
    reconciliation engine proved about it.

    Conventions of the embedding.
    - A JavaScript array is a [list]; reading outside it gives [undefined],
      writing outside it extends it with holes ([aset]).
    - [rowHash] and [colHash], JavaScript objects used as maps from strings
      to positions, are [gmap string nat] for the properties of their own,
      which are the positions assigned to them; what they inherit from
      [Object.prototype] is in [objectPrototype], [isUndefined] and
      [assign].
    - An exception ([TypeError] of [(undefined).toString()] or of reading a
      property of [null]) ends the callback; [res] records the state reached.
    - [jQuery.ajax], the line splitting and [String.prototype.splitCSV] are
      outside: the functions below start from the heatmap whose
      [cells.header] and [cells.values] hold the parsed table. *)

From stdpp Require Import base gmap list strings.
From Stdlib Require Import ZArith Lia Ascii.

Local Open Scope string_scope.
Local Open Scope list_scope.
Local Open Scope nat_scope.

(** ** Values, arrays and exceptions *)

(** A field of a table. [VHole] is an array slot that was never written: it
    reads as [undefined] but [indexOf] passes over it. *)
Inductive value : Type :=
  | VHole
  | VUndef
  | VNull
  | VStr (s : string).

(** An element of a [values] array: a record (an array of fields), [null],
    or nothing. *)
Inductive entry : Type :=
  | EUndef
  | ENull
  | ERec (r : list value).

(** A number used as an array index, or [undefined]. *)
Inductive idx : Type :=
  | IUndef
  | INum (z : Z).

(** The outcome of code that can throw: [Ok] with the state at the end, or
    [TypeError] with the state reached when the exception was raised. *)
Inductive res (A : Type) : Type :=
  | Ok (a : A)
  | TypeError (a : A).
Arguments Ok {A} a.
Arguments TypeError {A} a.

#[global] Instance value_eq_dec : EqDecision value.
Proof. solve_decision. Defined.

#[global] Instance entry_eq_dec : EqDecision entry.
Proof. solve_decision. Defined.

#[global] Instance idx_eq_dec : EqDecision idx.
Proof. solve_decision. Defined.

Definition norm (v : value) : value :=
  match v with
  | VHole => VUndef
  | _ => v
  end.

(** [a[i]] *)
Definition aget (a : list value) (i : idx) : value :=
  match i with
  | IUndef => VUndef
  | INum z =>
      if (z <? 0)%Z then VUndef
      else match a !! Z.to_nat z with
           | Some v => norm v
           | None => VUndef
           end
  end.

(** [a[n] = v] for a natural number [n]: in place inside the array, and
    extending it, leaving holes, outside. *)
Definition aset {A : Type} (hole : A) (a : list A) (n : nat) (v : A) : list A :=
  if decide (n < length a) then <[n:=v]> a
  else a ++ replicate (n - length a) hole ++ [v].

(** [a[z] = v] for an integer [z]: a negative [z] names a property, not an
    element. *)
Definition aset_Z {A : Type} (hole : A) (a : list A) (z : Z) (v : A) : list A :=
  if (z <? 0)%Z then a else aset hole a (Z.to_nat z) v.

(** [(v).toString()]: throws on [undefined] and [null]. *)
Definition toString (v : value) : option string :=
  match v with
  | VStr s => Some s
  | _ => None
  end.

(** The property name [v] stands for in [hash[v]]. *)
Definition propKey (v : value) : string :=
  match v with
  | VStr s => s
  | VNull => "null"
  | _ => "undefined"
  end.

(** [a === b], for a value [a] read from an array and a slot [b]. *)
Definition strict_eq (a b : value) : bool :=
  match a, b with
  | VUndef, VUndef => true
  | VNull, VNull => true
  | VStr s, VStr t => bool_decide (s = t)
  | _, _ => false
  end.

(** [k != vk] for a number [k]. *)
Definition differs (k : Z) (vk : idx) : bool :=
  match vk with
  | IUndef => true
  | INum z => negb (k =? z)%Z
  end.

(** [$.inArray(elem, arr)]: the first index of [elem], or [-1]. *)
Fixpoint inArray_from (i : Z) (elem : value) (arr : list value) : Z :=
  match arr with
  | [] => (-1)%Z
  | x :: t => if strict_eq elem x then i else inArray_from (i + 1)%Z elem t
  end.

Definition inArray (elem : value) (arr : list value) : Z :=
  inArray_from 0%Z elem arr.

(** ** The heatmap *)

Record table : Type := Table {
  header : list value;
  values : list entry;
  ready : bool
}.

(** [heatmap.options.data]: [data_rows] and [data_cols] say whether a reader
    of a row or column annotation table is configured. *)
Record data : Type := Data {
  data_rows : bool;
  data_cols : bool;
  rows_annotations : option (list Z);
  cols_annotations : option (list Z)
}.

Record heatmap : Type := Heatmap {
  rows : table;
  cols : table;
  cells : table;
  options : data
}.

Definition rowCount (h : heatmap) : nat := length (values (rows h)).
Definition columnCount (h : heatmap) : nat := length (values (cols h)).
Definition valueAt (h : heatmap) (i j : nat) : option entry :=
  values (cells h) !! (i * columnCount h + j).

(** The key of the axis record at position [i], for an axis whose key is
    field [key] of its records. *)
Definition keyAt (axisValues : list entry) (key : idx) (i : nat)
  : option value :=
  match axisValues !! i with
  | Some (ERec r) => Some (aget r key)
  | _ => None
  end.

Definition rowKeyAt (h : heatmap) (key : idx) (i : nat) : option value :=
  keyAt (values (rows h)) key i.
Definition colKeyAt (h : heatmap) (key : idx) (j : nat) : option value :=
  keyAt (values (cols h)) key j.

(** The field of record [e] at index [k]; [None] when reading it throws. *)
Definition field (e : entry) (k : idx) : option value :=
  match e with
  | ERec r => Some (aget r k)
  | _ => None
  end.

(** ** [TsvMatrixReader.read]: key inference *)

(** The loop over [heatmap.rows.header], from index [i], [valuesRowKey]
    holding [vk]: the resulting [rowKey] and [valuesRowKey]. *)
Fixpoint rowKeyScan (cellsHeader hdr : list value) (i : Z) (vk : idx)
  : idx * idx :=
  match hdr with
  | [] => (IUndef, vk)
  | x :: t =>
      let k := inArray (norm x) cellsHeader in
      if (-1 <? k)%Z then (INum i, INum k)
      else rowKeyScan cellsHeader t (i + 1)%Z (INum k)
  end.

(** The loop over [heatmap.cols.header]: a match at [valuesRowKey] is
    passed over. *)
Fixpoint colKeyScan (cellsHeader : list value) (valuesRowKey : idx)
    (hdr : list value) (i : Z) (vk : idx) : idx * idx :=
  match hdr with
  | [] => (IUndef, vk)
  | x :: t =>
      let k := inArray (norm x) cellsHeader in
      if (-1 <? k)%Z && differs k valuesRowKey then (INum i, INum k)
      else colKeyScan cellsHeader valuesRowKey t (i + 1)%Z (INum k)
  end.

(** The loop over an annotation list: each listed field of the cell header
    is pushed on the axis header and overwritten with [undefined]. *)
Fixpoint relocate (ann : list Z) (axisHeader cellsHeader : list value)
  : list value * list value :=
  match ann with
  | [] => (axisHeader, cellsHeader)
  | a :: t =>
      relocate t (axisHeader ++ [aget cellsHeader (INum a)])
               (aset_Z VHole cellsHeader a VUndef)
  end.

Definition firstOf (ann : list Z) : idx :=
  match ann with
  | [] => IUndef
  | a :: _ => INum a
  end.

(** What key inference leaves behind for one axis. *)
Record inferred : Type := Inferred {
  axisKey : idx;
  valuesKey : idx;
  axisHeader : list value;
  cellsHeader : list value
}.

Definition inferRow (h : heatmap) : inferred :=
  if data_rows (options h) then
    let '(rowKey, valuesRowKey) :=
      rowKeyScan (header (cells h)) (header (rows h)) 0%Z IUndef in
    Inferred rowKey valuesRowKey (header (rows h)) (header (cells h))
  else
    match rows_annotations (options h) with
    | Some rowAnn =>
        let '(rh, ch) := relocate rowAnn [] (header (cells h)) in
        Inferred (INum 0) (firstOf rowAnn) rh ch
    | None =>
        Inferred (INum 0) (INum 1) [aget (header (cells h)) (INum 1)]
                 (header (cells h))
    end.

Definition inferCol (h : heatmap) (r : inferred) : inferred :=
  if data_cols (options h) then
    let '(colKey, valuesColKey) :=
      colKeyScan (cellsHeader r) (valuesKey r) (header (cols h)) 0%Z IUndef in
    Inferred colKey valuesColKey (header (cols h)) (cellsHeader r)
  else
    match cols_annotations (options h) with
    | Some colAnn =>
        let '(ch', ch) := relocate colAnn [] (cellsHeader r) in
        Inferred (INum 0) (firstOf colAnn) ch' ch
    | None =>
        Inferred (INum 0) (INum 0) [aget (cellsHeader r) (INum 0)]
                 (cellsHeader r)
    end.

(** ** [TsvMatrixReader.read]: the hashes *)

(** The names an object made by [{}] inherits from [Object.prototype]:
    those of the standard (ES5.1, 15.2.4) and the accessors every engine
    adds to them. *)
Definition objectPrototype : list string :=
  ["constructor"; "toString"; "toLocaleString"; "valueOf"; "hasOwnProperty";
   "isPrototypeOf"; "propertyIsEnumerable"; "__proto__"; "__defineGetter__";
   "__defineSetter__"; "__lookupGetter__"; "__lookupSetter__"].

Definition inherited (s : string) : bool :=
  bool_decide (s ∈ objectPrototype).

(** [hash[s] == undefined]: the hash has no position for [s] and inherits
    nothing under that name (an inherited function or object is not
    [undefined]). *)
Definition isUndefined (hash : gmap string nat) (s : string) : bool :=
  match hash !! s with
  | Some _ => false
  | None => negb (inherited s)
  end.

(** [hash[s] = i]: a property of the hash's own, except under the name
    [__proto__], whose inherited setter ignores a number. *)
Definition assign (hash : gmap string nat) (s : string) (i : nat)
  : gmap string nat :=
  if decide (s = "__proto__") then hash else <[s:=i]> hash.

(** Declared tables: [hash[(vals[i][key]).toString()] = i], for the records
    [vals] that start at position [i]. *)
Fixpoint hashAxis (key : idx) (vals : list entry) (i : nat)
    (hash : gmap string nat) : res (gmap string nat) :=
  match vals with
  | [] => Ok hash
  | e :: t =>
      match field e key ≫= toString with
      | None => TypeError hash
      | Some s => hashAxis key t (S i) (assign hash s i)
      end
  end.

(** The state of the discovery loop. *)
Record hashes : Type := Hashes {
  rowHash : gmap string nat;
  rowsValues : list entry;
  colHash : gmap string nat;
  colsValues : list entry
}.

(** One axis, one record: a key under which the hash reads [undefined]
    gets the next position and a new axis record made of the fields [fields]
    of the record. *)
Definition discover (vk : idx) (fields : list idx) (r : list value)
    (hash : gmap string nat) (axisValues : list entry)
  : option (gmap string nat * list entry) :=
  match toString (aget r vk) with
  | None => None
  | Some s =>
      if isUndefined hash s then
        Some (assign hash s (length axisValues),
              axisValues ++ [ERec (map (aget r) fields)])
      else Some (hash, axisValues)
  end.

(** The body of the discovery loop for one element of [cells.values]. *)
Definition discoverStep (vrk vck : idx) (rowValues colValues : list idx)
    (st : hashes) (e : entry) : res hashes :=
  match e with
  | ERec r =>
      match discover vrk rowValues r (rowHash st) (rowsValues st) with
      | None => TypeError st
      | Some (rh, rv) =>
          let st1 := Hashes rh rv (colHash st) (colsValues st) in
          match discover vck colValues r (colHash st) (colsValues st) with
          | None => TypeError st1
          | Some (ch, cv) => Ok (Hashes rh rv ch cv)
          end
      end
  | _ => Ok st
  end.

Fixpoint discoverAll (vrk vck : idx) (rowValues colValues : list idx)
    (recs : list entry) (st : hashes) : res hashes :=
  match recs with
  | [] => Ok st
  | e :: t =>
      match discoverStep vrk vck rowValues colValues st e with
      | Ok st' => discoverAll vrk vck rowValues colValues t st'
      | TypeError st' => TypeError st'
      end
  end.

Definition fieldsOf (ann : option (list Z)) (vk : idx) : list idx :=
  match ann with
  | Some l => map INum l
  | None => [vk]
  end.

(** Lines 184-238: both hashes, from the annotation tables when both are
    declared and from the cell table otherwise. *)
Definition buildHashes (h : heatmap) (rowKey vrk colKey vck : idx)
  : res hashes :=
  let start := Hashes ∅ (values (rows h)) ∅ (values (cols h)) in
  if data_rows (options h) && data_cols (options h) then
    match hashAxis rowKey (values (rows h)) 0 ∅ with
    | TypeError _ => TypeError start
    | Ok rh =>
        match hashAxis colKey (values (cols h)) 0 ∅ with
        | TypeError _ => TypeError start
        | Ok ch => Ok (Hashes rh (values (rows h)) ch (values (cols h)))
        end
    end
  else
    discoverAll vrk vck
      (fieldsOf (rows_annotations (options h)) vrk)
      (fieldsOf (cols_annotations (options h)) vck)
      (values (cells h)) start.

(** ** [TsvMatrixReader.read]: the dense matrix *)

(** [for (pos = from; pos < from + n; pos++) cellValues[pos] = null] *)
Fixpoint nullLoop (n from : nat) (cellValues : list entry) : list entry :=
  match n with
  | 0 => cellValues
  | S n' => nullLoop n' (S from) (aset EUndef cellValues from ENull)
  end.

Definition nullMatrix (totalPos : nat) : list entry := nullLoop totalPos 0 [].

(** [rowIndex * cl + colIndex]: [None] is what comes of a lookup that found
    no position, [NaN] or a string, neither of them an index: the lookup
    gave [undefined], or a function or object inherited from
    [Object.prototype]. *)
Definition position (rh ch : gmap string nat) (vrk vck : idx) (cl : nat)
    (r : list value) : option nat :=
  match rh !! propKey (aget r vrk), ch !! propKey (aget r vck) with
  | Some rowIndex, Some colIndex => Some (rowIndex * cl + colIndex)
  | _, _ => None
  end.

(** The body of the loading loop: [cellValues[pos] = value] for a [pos]
    that is no index sets a property and leaves every element as it is. *)
Definition loadStep (rh ch : gmap string nat) (vrk vck : idx) (cl : nat)
    (cellValues : list entry) (e : entry) : list entry :=
  match e with
  | ERec r =>
      match position rh ch vrk vck cl r with
      | Some pos => aset EUndef cellValues pos (ERec r)
      | None => cellValues
      end
  | _ => cellValues
  end.

Definition loadCells (rh ch : gmap string nat) (vrk vck : idx) (cl : nat)
    (recs : list entry) (cellValues : list entry) : list entry :=
  foldl (loadStep rh ch vrk vck cl) cellValues recs.

(** ** [TsvMatrixReader.read] *)

(** The heatmap once the hashes are built (or failed to be): the axis headers
    of key inference, the axis records of the hash loops. *)
Definition withAxes (h : heatmap) (r c : inferred) (st : hashes)
    (cellsT : table) : heatmap :=
  Heatmap (Table (axisHeader r) (rowsValues st) (ready (rows h)))
          (Table (axisHeader c) (colsValues st) (ready (cols h)))
          cellsT (options h).

(** Lines 240-261: the null matrix, then the loading loop. *)
Definition denseValues (vrk vck : idx) (st : hashes) (recs : list entry)
  : list entry :=
  let cl := length (colsValues st) in
  let totalPos := length (rowsValues st) * cl in
  loadCells (rowHash st) (colHash st) vrk vck cl recs (nullMatrix totalPos).

Definition read (orderedValues : bool) (h : heatmap) : res heatmap :=
  if orderedValues then
    Ok (Heatmap (rows h) (cols h)
          (Table (header (cells h)) (values (cells h)) true) (options h))
  else
    let r := inferRow h in
    let c := inferCol h r in
    match buildHashes h (axisKey r) (valuesKey r) (axisKey c) (valuesKey c) with
    | TypeError st =>
        TypeError
          (withAxes h r c st
             (Table (cellsHeader c) (values (cells h)) (ready (cells h))))
    | Ok st =>
        let cellValues :=
          denseValues (valuesKey r) (valuesKey c) st (values (cells h)) in
        Ok (withAxes h r c st (Table (cellsHeader c) cellValues true))
    end.

(** ** [CdmMatrixReader.read] *)

(** The inner loop: one cell, [[ record[col + 1] ]], for each column. *)
Definition cdmCells (r : list value) (columns : nat) : list entry :=
  map (fun col => ERec [aget r (INum (Z.of_nat col + 1))]) (seq 0 columns).

(** The loop over [cells.values]: reading field 0 of an element that is not
    an array throws. *)
Fixpoint cdmRows (columns : nat) (recs : list entry)
    (rowsValues cellValues : list entry)
  : res (list entry * list entry) :=
  match recs with
  | [] => Ok (rowsValues, cellValues)
  | ERec r :: t =>
      cdmRows columns t (rowsValues ++ [ERec [aget r (INum 0)]])
              (cellValues ++ cdmCells r columns)
  | _ :: _ => TypeError (rowsValues, cellValues)
  end.

Definition cdmCols (cellsHeader : list value) (colsValues : list entry)
  : list entry :=
  colsValues ++ map (fun x => ERec [norm x]) cellsHeader.

Definition readCdm (h : heatmap) : res heatmap :=
  let colsT :=
    Table [VStr "Column"] (cdmCols (header (cells h)) (values (cols h)))
          (ready (cols h)) in
  match cdmRows (length (values colsT)) (values (cells h))
                (values (rows h)) [] with
  | TypeError (rv, _) =>
      TypeError (Heatmap (Table [VStr "Row"] rv (ready (rows h))) colsT
                   (cells h) (options h))
  | Ok (rv, cellValues) =>
      Ok (Heatmap (Table [VStr "Row"] rv (ready (rows h))) colsT
            (Table [VStr "Value"] cellValues true) (options h))
  end.

(** ** Notions used in the statements *)

(** Every position of [hash] is below [n]. *)
Definition bounded (hash : gmap string nat) (n : nat) : Prop :=
  ∀ s p, hash !! s = Some p → p < n.

(** The invariant of the discovery loop. *)
Definition hashes_bounded (st : hashes) : Prop :=
  bounded (rowHash st) (length (rowsValues st)) ∧
  bounded (colHash st) (length (colsValues st)).

(** What the loading loop leaves at offset [p]: the last record met that
    resolves to [p], and what was there before when there is none. *)
Definition pick (rh ch : gmap string nat) (vrk vck : idx) (cl : nat)
    (p : nat) (acc : option entry) (e : entry) : option entry :=
  match e with
  | ERec r =>
      if decide (position rh ch vrk vck cl r = Some p) then Some e else acc
  | _ => acc
  end.

(** Every record of [recs] that resolves, resolves below [n]. *)
Definition in_range (rh ch : gmap string nat) (vrk vck : idx) (cl : nat)
    (recs : list entry) (n : nat) : Prop :=
  ∀ r q, ERec r ∈ recs → position rh ch vrk vck cl r = Some q → q < n.

(** The name [x] of an axis header occurs in the header [arr]: some slot of
    [arr] is strictly equal to it (for strings, the same string). *)
Definition occurs (x : value) (arr : list value) : Prop :=
  ∃ y, y ∈ arr ∧ strict_eq (norm x) y = true.

(** [k] is the first index of [arr] at which [x] occurs. *)
Definition firstIndex (x : value) (arr : list value) (k : nat) : Prop :=
  (∃ y, arr !! k = Some y ∧ strict_eq (norm x) y = true) ∧
  ∀ n y, n < k → arr !! n = Some y → strict_eq (norm x) y = false.

(** A field [x] of the column header that the column loop passes over:
    it does not occur in the cell header [ch], or first occurs at
    [valuesRowKey]. *)
Definition passed (ch : list value) (vrk : idx) (x : value) : Prop :=
  ∀ k, firstIndex x ch k → INum (Z.of_nat k) = vrk.

(** Index discovery as the specification words it: the records of [recs]
    that bring a key (the string at field [vk]) seen neither in [seen] nor in
    an earlier record, each with its key, in the order of the cell table;
    elements that are not records are passed over. *)
Fixpoint firstSeen (vk : idx) (seen : list string) (recs : list entry)
  : list (string * list value) :=
  match recs with
  | [] => []
  | ERec r :: t =>
      match toString (aget r vk) with
      | Some s =>
          if decide (s ∈ seen) then firstSeen vk seen t
          else (s, r) :: firstSeen vk (s :: seen) t
      | None => []
      end
  | _ :: t => firstSeen vk seen t
  end.

(** What the discovery loop does index: as [firstSeen], but a key that the
    hash inherits a property for is passed over like a key seen before. *)
Fixpoint indexed (vk : idx) (seen : list string) (recs : list entry)
  : list (string * list value) :=
  match recs with
  | [] => []
  | ERec r :: t =>
      match toString (aget r vk) with
      | Some s =>
          if decide (s ∈ seen) then indexed vk seen t
          else if inherited s then indexed vk seen t
          else (s, r) :: indexed vk (s :: seen) t
      | None => []
      end
  | _ :: t => indexed vk seen t
  end.

(** The axis record made for a record of the cell table: its fields
    [fields], in that order. *)
Definition axisRecord (fields : list idx) (sr : string * list value) : entry :=
  ERec (map (aget sr.2) fields).

(** [hash'] is [hash] with the keys of [found], numbered from [n] on. *)
Definition numbered (hash hash' : gmap string nat) (n : nat)
    (found : list (string * list value)) : Prop :=
  ∀ s p, hash' !! s = Some p ↔
    hash !! s = Some p ∨ ∃ k r, found !! k = Some (s, r) ∧ p = n + k.

(** [seen] lists the keys of [hash]. *)
Definition keys_of (hash : gmap string nat) (seen : list string) : Prop :=
  ∀ s, s ∈ seen ↔ is_Some (hash !! s).

(** No key of the cell table at field [vk] is a name the hashes inherit. *)
Definition plainKeys (vk : idx) (recs : list entry) : Prop :=
  ∀ r s, ERec r ∈ recs → toString (aget r vk) = Some s → inherited s = false.

(** [e != null] *)
Definition isRecord (e : entry) : bool :=
  match e with
  | ERec _ => true
  | _ => false
  end.

(** The string under which the declared loop files the axis record [e]. *)
Definition keyString (key : idx) (e : entry) : option string :=
  field e key ≫= toString.

(** [k] is the last position of [vals] whose record has the key [s]. *)
Definition lastOccurrence (key : idx) (vals : list entry) (s : string)
    (k : nat) : Prop :=
  (∃ e, vals !! k = Some e ∧ keyString key e = Some s) ∧
  ∀ k' e', k < k' → vals !! k' = Some e' → keyString key e' ≠ Some s.

(** Sample heatmaps, as the line loop leaves them. *)
Definition strings (l : list string) : list value := map VStr l.

Definition emptyTable : table := Table [] [] false.

(** Both annotation tables declared; the row table has the key [a] twice,
    the column table shares the field [id] with the row table, and the last
    cell record names a row that is not declared. *)
Definition declaredSample : heatmap :=
  Heatmap
    (Table (strings ["id"; "x"])
       [ERec (strings ["a"; "1"]); ERec (strings ["a"; "2"]);
        ERec (strings ["b"; "3"])] true)
    (Table (strings ["id"; "cname"])
       [ERec (strings ["0"; "c1"]); ERec (strings ["1"; "c2"])] true)
    (Table (strings ["id"; "cname"; "v"])
       [ERec (strings ["b"; "c2"; "5"]); ERec (strings ["b"; "c2"; "6"]);
        ERec (strings ["zz"; "c2"; "7"])] false)
    (Data true true None None).

(** Both annotation tables declared and empty, no header field of theirs in
    the cell header. *)
Definition unmatchedSample : heatmap :=
  Heatmap (Table (strings ["q"]) [] true) (Table (strings ["w"]) [] true)
    (Table (strings ["id"; "cname"; "v"]) [ERec (strings ["a"; "c1"; "5"])]
       false)
    (Data true true None None).

(** As [unmatchedSample], with one record in the row table. *)
Definition unmatchedRows : heatmap :=
  Heatmap (Table (strings ["q"]) [ERec (strings ["r1"])] true)
    (Table (strings ["w"]) [] true)
    (Table (strings ["id"; "cname"; "v"]) [ERec (strings ["a"; "c1"; "5"])]
       false)
    (Data true true None None).

(** No annotation table: column label first, row label second. *)
Definition discoverySample : heatmap :=
  Heatmap emptyTable emptyTable
    (Table (strings ["c"; "r"; "v"])
       [ERec (strings ["c1"; "r1"; "5"]); ENull;
        ERec (strings ["c1"; "r2"; "6"]); ERec (strings ["c2"; "r1"; "7"])]
       false)
    (Data false false None None).

(** The file of the documentation of [CdmMatrixReader]: the header names
    the columns only. *)
Definition wideSample : heatmap :=
  Heatmap emptyTable emptyTable
    (Table (strings ["col1"; "col2"])
       [ERec (strings ["r1"; "0.11"; "0.12"]);
        ERec (strings ["r2"; "0.21"; "0.22"])] false)
    (Data false false None None).

(** The same records under a header that also labels the row names. *)
Definition wideLabelled : heatmap :=
  Heatmap emptyTable emptyTable
    (Table (strings ["Row"; "col1"; "col2"])
       [ERec (strings ["r1"; "0.11"; "0.12"]);
        ERec (strings ["r2"; "0.21"; "0.22"])] false)
    (Data false false None None).

(** A second record shorter than the header. *)
Definition wideRagged : heatmap :=
  Heatmap emptyTable emptyTable
    (Table (strings ["Row"; "col1"; "col2"])
       [ERec (strings ["r1"; "0.11"; "0.12"]); ERec (strings ["r2"; "0.21"])]
       false)
    (Data false false None None).

(** No annotation table, the row label first and the column label second,
    named by the annotation field lists. *)
Definition annotatedSample : heatmap :=
  Heatmap emptyTable emptyTable
    (Table (strings ["r"; "c"; "v"])
       [ERec (strings ["r1"; "c1"; "5"]); ERec (strings ["r2"; "c1"; "6"]);
        ERec (strings ["r1"; "c2"; "7"])] false)
    (Data false false (Some [0%Z]) (Some [1%Z])).

(** The hashes of [declaredSample]. *)
Definition declaredHashes : hashes :=
  match buildHashes declaredSample (INum 0) (INum 0) (INum 1) (INum 1) with
  | Ok st | TypeError st => st
  end.

(** ** The line loop of the three readers *)

Definition CR : ascii := "013"%char.
Definition LF : ascii := "010"%char.

(** [s.replace(c, '')] for a one-character string [c]: a string pattern is
    replaced once, at its first occurrence. *)
Fixpoint replaceFirst (c : ascii) (s : string) : string :=
  match s with
  | EmptyString => EmptyString
  | String a t => if decide (a = c) then t else String a (replaceFirst c t)
  end.

(** [s.split(c)] for a one-character string [c]. *)
Fixpoint split (c : ascii) (s : string) : list string :=
  match s with
  | EmptyString => [EmptyString]
  | String a t =>
      if decide (a = c) then EmptyString :: split c t
      else match split c t with
           | l :: ls => String a l :: ls
           | [] => [String a EmptyString]
           end
  end.

(** [line.startsWith(p)] *)
Definition startsWith (line p : string) : bool := String.prefix p line.

(** [line.length > 0 && !line.startsWith("#")] *)
Definition isData (line : string) : bool :=
  (0 <? String.length line) && negb (startsWith line "#").

(** The lines the loop runs over: [file.replace('\r', '').split('\n')]. *)
Definition linesOf (file : string) : list string :=
  split LF (replaceFirst CR file).

Section lines.
(** [line.splitCSV(sep)]: [String.prototype.splitCSV] is not part of the
    sources; it is a parameter, returning the fields of the line as
    strings. *)
Variable splitCSV : string → string → list string.

Definition fieldsOfLine (sep line : string) : list value :=
  map VStr (splitCSV sep line).

(** The callback of [jQuery.each(lines, ...)] on the table [t]
    ([result], or [heatmap.cells]). *)
Definition lineStep (sep : string) (t : table) (lineCount : nat)
    (line : string) : table :=
  if isData line then
    if lineCount =? 0 then Table (fieldsOfLine sep line) (values t) (ready t)
    else Table (header t) (values t ++ [ERec (fieldsOfLine sep line)])
               (ready t)
  else t.

(** [jQuery.each] over the lines from index [lineCount] on; the callback
    returns nothing, so the iteration is never cut short. *)
Fixpoint eachLine (sep : string) (lineCount : nat) (lines : list string)
    (t : table) : table :=
  match lines with
  | [] => t
  | line :: rest =>
      eachLine sep (S lineCount) rest (lineStep sep t lineCount line)
  end.

Definition readLines (sep file : string) (t : table) : table :=
  eachLine sep 0 (linesOf file) t.

(** The [success] callback of [TsvTableReader.read]. *)
Definition readTable (sep file : string) (result : table) : table :=
  let t := readLines sep file result in
  Table (header t) (values t) true.

Definition withCells (h : heatmap) (t : table) : heatmap :=
  Heatmap (rows h) (cols h) t (options h).

(** The [success] callback of [TsvMatrixReader.read]. *)
Definition readMatrixFile (sep : string) (orderedValues : bool)
    (file : string) (h : heatmap) : res heatmap :=
  read orderedValues (withCells h (readLines sep file (cells h))).

(** The [success] callback of [CdmMatrixReader.read]. *)
Definition readCdmFile (sep file : string) (h : heatmap) : res heatmap :=
  readCdm (withCells h (readLines sep file (cells h))).
End lines.

(** The file made of the lines [lines], one line break between two lines. *)
Definition joinLines (lines : list string) : string :=
  String.concat (String LF EmptyString) lines.

(** The same with carriage return and line feed as the line break. *)
Definition joinCRLF (lines : list string) : string :=
  String.concat (String CR (String LF EmptyString)) lines.

(** The character [c] is nowhere in [s]. *)
Fixpoint without (c : ascii) (s : string) : Prop :=
  match s with
  | EmptyString => True
  | String a t => a ≠ c ∧ without c t
  end.

(** The records the loop appends for the lines [lines]. *)
Definition recordsOf (splitCSV : string → string → list string)
    (sep : string) (lines : list string) : list entry :=
  map (λ line, ERec (fieldsOfLine splitCSV sep line))
      (List.filter isData lines).

(** A splitter for the samples: one field for each character of the line
    that is not the separator's first character. *)
Definition charFields (sep line : string) : list string :=
  match sep with
  | String c _ =>
      omap (λ a, if decide (a = c) then None else Some (String a EmptyString))
           (String.list_ascii_of_string line)
  | EmptyString => []
  end.

(** The lines of a file whose line break is carriage return and line feed,
    the first line apart: all but the last keep their carriage return. *)
Fixpoint keepCR (lines : list string) : list string :=
  match lines with
  | [] => []
  | [l] => [l]
  | l :: ls => (l +:+ String CR EmptyString) :: keepCR ls
  end.

(** No annotation table, and a second record with one field only. *)
Definition shortRecordSample : heatmap :=
  Heatmap emptyTable emptyTable
    (Table (strings ["c"; "r"; "v"])
       [ERec (strings ["c1"; "r1"; "5"]); ERec (strings ["c2"])] false)
    (Data false false None None).

(** A declared row table only: the columns are discovered. *)
Definition mixedSample : heatmap :=
  Heatmap
    (Table (strings ["r"; "x"])
       [ERec (strings ["r1"; "1"]); ERec (strings ["r2"; "2"])] true)
    emptyTable
    (Table (strings ["c"; "r"; "v"])
       [ERec (strings ["c1"; "r1"; "5"]); ERec (strings ["c2"; "r2"; "6"])]
       false)
    (Data true false None None).

(** The lines of a file after the first. *)
Definition laterLines (file : string) : list string := tail (linesOf file).

(** The data lines among them: neither empty nor a comment. *)
Definition dataLines (file : string) : list string :=
  List.filter isData (laterLines file).

(** A heatmap before any load, with no annotation table configured. *)
Definition emptyHeatmap : heatmap :=
  Heatmap emptyTable emptyTable emptyTable (Data false false None None).

(** The lines of a sample file: a header, two records, a comment and a
    blank line between them. *)
Definition sampleLines : list string :=
  ["c,r,v"; "1,2,3"; "#x"; ""; "4,5,6"].

(** Annotation field lists that name a field twice, a field outside the
    header, and a field the other list names too. *)
Definition listedSample : heatmap :=
  Heatmap emptyTable emptyTable (Table (strings ["a"; "b"; "c"]) [] false)
    (Data false false (Some [2; 0; 2; 5]%Z) (Some [1; 0]%Z)).

(** A declared row table alone, no header field of which is in the cell
    header. *)
Definition unmatchedAlone : heatmap :=
  Heatmap (Table (strings ["q"]) [ERec (strings ["r1"])] true) emptyTable
    (Table (strings ["c"; "r"; "v"]) [ERec (strings ["c1"; "r1"; "5"])] false)
    (Data true false None None).

(** No annotation table, and a row label that every object inherits. *)
Definition inheritedSample : heatmap :=
  Heatmap emptyTable emptyTable
    (Table (strings ["c"; "r"; "v"])
       [ERec (strings ["c1"; "constructor"; "5"]);
        ERec (strings ["c1"; "r2"; "6"])] false)
    (Data false false None None).

(** Both annotation tables declared, one row under the key [__proto__]. *)
Definition protoSample : heatmap :=
  Heatmap
    (Table (strings ["id"])
       [ERec (strings ["__proto__"]); ERec (strings ["b"])] true)
    (Table (strings ["cname"]) [ERec (strings ["c1"])] true)
    (Table (strings ["id"; "cname"; "v"])
       [ERec (strings ["__proto__"; "c1"; "5"])] false)
    (Data true true None None).

(** The hashes of [mixedSample]. *)
Definition mixedHashes : hashes :=
  match buildHashes mixedSample (INum 0) (INum 1) (INum 0) (INum 0) with
  | Ok st | TypeError st => st
  end.

(** The heatmap an outcome carries. *)
Definition resultOf (x : res heatmap) : heatmap :=
  match x with
  | Ok h | TypeError h => h
  end.

(** * Properties *)

(** ** Arrays *)

Section arrays.
Context {A : Type} (hole : A).
Implicit Types (a : list A) (n p : nat) (v : A).

Lemma aset_in_range a n v :
  n < length a → aset hole a n v = <[n:=v]> a.
Proof. intros Hn. unfold aset. by rewrite decide_True. Qed.

Lemma aset_length_in_range a n v :
  n < length a → length (aset hole a n v) = length a.
Proof. intros Hn. rewrite aset_in_range by done. apply length_insert. Qed.

Lemma aset_append a v : aset hole a (length a) v = a ++ [v].
Proof.
  unfold aset. rewrite decide_False by lia.
  by rewrite Nat.sub_diag.
Qed.

Lemma aset_lookup_eq a n v :
  n < length a → aset hole a n v !! n = Some v.
Proof.
  intros Hn. rewrite aset_in_range by done.
  by apply list_lookup_insert_eq.
Qed.

Lemma aset_lookup_ne a n p v :
  n < length a → n ≠ p → aset hole a n v !! p = a !! p.
Proof.
  intros Hn Hne. rewrite aset_in_range by done.
  by apply list_lookup_insert_ne.
Qed.
End arrays.

(** The null loop appends: it leaves no hole. *)
Lemma nullLoop_replicate n cellValues :
  nullLoop n (length cellValues) cellValues = cellValues ++ replicate n ENull.
Proof.
  revert cellValues. induction n as [|n IH]; intros cv; simpl.
  - by rewrite app_nil_r.
  - rewrite aset_append.
    replace (S (length cv)) with (length (cv ++ [ENull]))
      by (rewrite length_app; simpl; lia).
    rewrite IH. by rewrite <- app_assoc.
Qed.

Lemma nullMatrix_replicate totalPos :
  nullMatrix totalPos = replicate totalPos ENull.
Proof. unfold nullMatrix. apply (nullLoop_replicate totalPos []). Qed.

(** ** Hashes hold positions of axis records *)

Lemma bounded_empty n : bounded ∅ n.
Proof. intros s p. by rewrite lookup_empty. Qed.

Lemma bounded_mono hash n m : bounded hash n → n ≤ m → bounded hash m.
Proof. intros Hb Hle s p Hs. specialize (Hb s p Hs). lia. Qed.

Lemma bounded_insert hash n s p :
  bounded hash n → p < n → bounded (<[s:=p]> hash) n.
Proof.
  intros Hb Hp s' p'. rewrite lookup_insert.
  case_decide; [intros [= <-]; done | apply Hb].
Qed.

Lemma lookup_assign hash s i s' :
  assign hash s i !! s'
  = if decide (s = s' ∧ s ≠ "__proto__") then Some i else hash !! s'.
Proof.
  unfold assign. destruct (decide (s = "__proto__")) as [->|Hne].
  - by rewrite decide_False by (by intros [_ ?]).
  - rewrite lookup_insert. destruct (decide (s = s')) as [->|Hs].
    + by rewrite decide_True.
    + by rewrite decide_False by (by intros [? _]).
Qed.

Lemma bounded_assign hash n s p :
  bounded hash n → p < n → bounded (assign hash s p) n.
Proof.
  intros Hb Hp s' p'. rewrite lookup_assign.
  case_decide; [intros [= <-]; done | apply Hb].
Qed.

Lemma isUndefined_true hash s :
  isUndefined hash s = true ↔ hash !! s = None ∧ inherited s = false.
Proof.
  unfold isUndefined. destruct (hash !! s); [by split; [|intros [? _]]|].
  rewrite negb_true_iff. by split; [|intros [_ ?]].
Qed.

Lemma inherited_proto : inherited "__proto__" = true.
Proof. done. Qed.

Lemma hashAxis_bounded key vals i hash hash' :
  hashAxis key vals i hash = Ok hash' →
  bounded hash i → bounded hash' (i + length vals).
Proof.
  revert i hash. induction vals as [|e t IH]; intros i hash; simpl.
  - intros [= <-] Hb. by rewrite Nat.add_0_r.
  - destruct (field e key ≫= toString) as [s|]; [|done].
    intros Hh Hb. replace (i + S (length t)) with (S i + length t) by lia.
    apply (IH _ _ Hh). apply bounded_assign; [|lia].
    eapply bounded_mono; [done | lia].
Qed.

Lemma discover_bounded vk fields r hash axisValues hash' axisValues' :
  discover vk fields r hash axisValues = Some (hash', axisValues') →
  bounded hash (length axisValues) → bounded hash' (length axisValues').
Proof.
  unfold discover. destruct (toString (aget r vk)) as [s|]; [|done].
  destruct (isUndefined hash s).
  - intros [= <- <-] Hb. rewrite length_app. simpl.
    apply bounded_assign; [|lia]. eapply bounded_mono; [done | lia].
  - by intros [= <- <-].
Qed.

Lemma discoverStep_bounded vrk vck rf cf st e st' :
  discoverStep vrk vck rf cf st e = Ok st' →
  hashes_bounded st → hashes_bounded st'.
Proof.
  unfold discoverStep. destruct e as [| |r]; try by intros [= <-].
  destruct (discover vrk rf r _ _) as [[rh rv]|] eqn:Hr; [|done].
  destruct (discover vck cf r _ _) as [[ch cv]|] eqn:Hc; [|done].
  intros [= <-] [Hbr Hbc]. split; simpl.
  - by eapply discover_bounded.
  - by eapply discover_bounded.
Qed.

Lemma discoverAll_bounded vrk vck rf cf recs st st' :
  discoverAll vrk vck rf cf recs st = Ok st' →
  hashes_bounded st → hashes_bounded st'.
Proof.
  revert st. induction recs as [|e t IH]; intros st; simpl.
  - by intros [= <-].
  - destruct (discoverStep vrk vck rf cf st e) as [st1|st1] eqn:Hs; [|done].
    intros Hall Hb. apply (IH _ Hall). by eapply discoverStep_bounded.
Qed.

Lemma buildHashes_bounded h rowKey vrk colKey vck st :
  buildHashes h rowKey vrk colKey vck = Ok st → hashes_bounded st.
Proof.
  unfold buildHashes.
  destruct (data_rows (options h) && data_cols (options h)).
  - destruct (hashAxis rowKey _ 0 ∅) as [rh|] eqn:Hr; [|done].
    destruct (hashAxis colKey _ 0 ∅) as [ch|] eqn:Hc; [|done].
    intros [= <-]. split; simpl.
    + apply (hashAxis_bounded _ _ _ _ _ Hr), bounded_empty.
    + apply (hashAxis_bounded _ _ _ _ _ Hc), bounded_empty.
  - intros Hd. apply (discoverAll_bounded _ _ _ _ _ _ _ Hd).
    split; apply bounded_empty.
Qed.

(** ** The loading loop, position by position *)

Section loading.
Variables (rh ch : gmap string nat) (vrk vck : idx) (cl : nat).

Abbreviation pos := (position rh ch vrk vck cl).
Abbreviation pick := (pick rh ch vrk vck cl).
Abbreviation in_range := (in_range rh ch vrk vck cl).
Abbreviation step := (loadStep rh ch vrk vck cl).
Abbreviation load := (loadCells rh ch vrk vck cl).

Lemma position_bounded rl r q :
  bounded rh rl → bounded ch cl → pos r = Some q → q < rl * cl.
Proof.
  intros Hr Hc. unfold position.
  destruct (rh !! _) as [ri|] eqn:Hri; [|done].
  destruct (ch !! _) as [ci|] eqn:Hci; [|done].
  intros [= <-]. apply Hr in Hri. apply Hc in Hci. nia.
Qed.

Lemma in_range_bounded rl recs :
  bounded rh rl → bounded ch cl → in_range recs (rl * cl).
Proof. intros Hr Hc r q _. by apply position_bounded. Qed.

Lemma in_range_cons e recs n :
  in_range (e :: recs) n → in_range recs n.
Proof. intros H r q Hin. apply H. by right. Qed.

Lemma loadStep_length cv e n :
  in_range [e] n → length cv = n → length (step cv e) = n.
Proof.
  intros Hr Hl. destruct e as [| |r]; simpl; try done.
  destruct (pos r) as [q|] eqn:Hq; [|done].
  rewrite aset_length_in_range; [done|].
  rewrite Hl. apply (Hr r q); [by left | done].
Qed.

Lemma loadStep_lookup cv e n p :
  in_range [e] n → length cv = n →
  step cv e !! p = pick p (cv !! p) e.
Proof.
  intros Hr Hl. destruct e as [| |r]; simpl; try done.
  destruct (pos r) as [q|] eqn:Hq.
  - assert (q < length cv) as Hlt.
    { rewrite Hl. apply (Hr r q); [by left | done]. }
    destruct (decide (Some q = Some p)) as [[= ->]|Hne].
    + by apply aset_lookup_eq.
    + apply aset_lookup_ne; [done | congruence].
  - by rewrite decide_False.
Qed.

Lemma loadCells_length recs cv n :
  in_range recs n → length cv = n → length (load recs cv) = n.
Proof.
  revert cv. induction recs as [|e t IH]; intros cv Hr Hl; simpl; [done|].
  apply IH; [by eapply in_range_cons|].
  apply loadStep_length; [|done].
  intros r q Hin. apply Hr. apply list_elem_of_singleton in Hin as ->.
  by left.
Qed.

Lemma loadCells_lookup recs cv n p :
  in_range recs n → length cv = n →
  load recs cv !! p = foldl (pick p) (cv !! p) recs.
Proof.
  revert cv. induction recs as [|e t IH]; intros cv Hr Hl; simpl; [done|].
  assert (in_range [e] n) as He.
  { intros r q Hin. apply Hr. apply list_elem_of_singleton in Hin as ->.
    by left. }
  rewrite (IH (step cv e)).
  - by rewrite (loadStep_lookup cv e n p He Hl).
  - by eapply in_range_cons.
  - by apply loadStep_length.
Qed.

(** No record resolving to [p]: the offset keeps what it held. *)
Lemma pick_none p acc recs :
  (∀ r, ERec r ∈ recs → pos r ≠ Some p) → foldl (pick p) acc recs = acc.
Proof.
  revert acc. induction recs as [|e t IH]; intros acc Hn; simpl; [done|].
  rewrite IH.
  - destruct e as [| |r]; simpl; try done.
    rewrite decide_False; [done|]. apply Hn. by left.
  - intros r Hin. apply Hn. by right.
Qed.

(** The last record resolving to [p] is what the offset holds. *)
Lemma pick_last p acc before r after :
  pos r = Some p → (∀ r', ERec r' ∈ after → pos r' ≠ Some p) →
  foldl (pick p) acc (before ++ ERec r :: after) = Some (ERec r).
Proof.
  intros Hp Hafter. rewrite foldl_app. simpl.
  rewrite decide_True by done. by apply pick_none.
Qed.

(** A record that does not resolve to [p] is as good as absent. *)
Lemma pick_skip p acc before e after :
  (∀ r, e = ERec r → pos r ≠ Some p) →
  foldl (pick p) acc (before ++ e :: after)
  = foldl (pick p) acc (before ++ after).
Proof.
  intros He. rewrite !foldl_app. simpl. f_equal.
  destruct e as [| |r]; simpl; try done.
  rewrite decide_False; [done|]. by apply He.
Qed.

(** What the offsets hold is [null] or a record of the cell table. *)
Lemma pick_cases p acc recs :
  foldl (pick p) acc recs = acc ∨
  ∃ r, ERec r ∈ recs ∧ pos r = Some p ∧
       foldl (pick p) acc recs = Some (ERec r).
Proof.
  revert acc. induction recs as [|e t IH]; intros acc; simpl; [by left|].
  destruct (IH (pick p acc e)) as [Heq|(r & Hin & Hp & Heq)].
  - rewrite Heq. destruct e as [| |r]; simpl; try by left.
    case_decide; [|by left]. right. exists r. split_and!; [by left|done..].
  - right. exists r. split_and!; [by right|done..].
Qed.

(** Among the records resolving to [p] there is a last one. *)
Lemma last_resolving (recs : list entry) p i r :
  recs !! i = Some (ERec r) → pos r = Some p →
  ∃ k r', i ≤ k ∧ recs !! k = Some (ERec r') ∧ pos r' = Some p ∧
    ∀ k' r'', k < k' → recs !! k' = Some (ERec r'') → pos r'' ≠ Some p.
Proof.
  revert i r. induction recs as [|e t IH] using rev_ind; intros i r Hi Hp;
    [done|].
  assert (i < length t + 1) as Hlt.
  { apply lookup_lt_Some in Hi. by rewrite length_app in Hi. }
  assert ((∃ r', e = ERec r' ∧ pos r' = Some p) ∨
          ¬ (∃ r', e = ERec r' ∧ pos r' = Some p)) as [(r' & -> & Hp')|Hno].
  { destruct e as [| |r0]; [right; by intros (? & ? & ?)..|].
    destruct (decide (pos r0 = Some p)); [left; eauto|].
    right. by intros (? & [= <-] & ?). }
  - exists (length t), r'. split_and!; [lia| |done|].
    + by rewrite list_lookup_middle.
    + intros k' r'' Hk' Hl. apply lookup_lt_Some in Hl.
      rewrite length_app in Hl. simpl in Hl. lia.
  - destruct (decide (i = length t)) as [->|Hne].
    { rewrite list_lookup_middle in Hi by done. injection Hi as ->.
      exfalso. apply Hno. by exists r. }
    rewrite lookup_app_l in Hi by lia.
    destruct (IH i r Hi Hp) as (k & r' & Hle & Hk & Hp' & Hlast).
    exists k, r'. split_and!; [done| |done|].
    + rewrite lookup_app_l; [done|]. by apply lookup_lt_Some in Hk.
    + intros k' r'' Hk' Hl Hp''.
      destruct (decide (k' < length t)) as [Hin|Hout].
      * rewrite lookup_app_l in Hl by done. by apply (Hlast k' r'').
      * apply Hno. exists r''. split; [|done].
        assert (k' = length t) as ->.
        { apply lookup_lt_Some in Hl. rewrite length_app in Hl.
          simpl in Hl. lia. }
        rewrite list_lookup_middle in Hl by done. by injection Hl.
Qed.
End loading.


(** ** The shape of a completed [read] *)

Lemma read_Ok_inv h h' :
  read false h = Ok h' →
  ∃ st, let r := inferRow h in let c := inferCol h r in
    buildHashes h (axisKey r) (valuesKey r) (axisKey c) (valuesKey c) = Ok st ∧
    h' = withAxes h r c st
           (Table (cellsHeader c)
              (denseValues (valuesKey r) (valuesKey c) st (values (cells h)))
              true).
Proof.
  unfold read.
  destruct (buildHashes h _ _ _ _) as [st|st] eqn:Hb; [|done].
  intros [= <-]. by exists st.
Qed.

Lemma read_Ok_intro h st :
  let r := inferRow h in let c := inferCol h r in
  buildHashes h (axisKey r) (valuesKey r) (axisKey c) (valuesKey c) = Ok st →
  read false h
  = Ok (withAxes h r c st
          (Table (cellsHeader c)
             (denseValues (valuesKey r) (valuesKey c) st (values (cells h)))
             true)).
Proof. intros r c Hb. unfold read. fold r. fold c. by rewrite Hb. Qed.

Lemma denseValues_length vrk vck st recs :
  hashes_bounded st →
  length (denseValues vrk vck st recs)
  = length (rowsValues st) * length (colsValues st).
Proof.
  intros [Hr Hc]. unfold denseValues.
  apply loadCells_length.
  - by apply in_range_bounded.
  - by rewrite nullMatrix_replicate, length_replicate.
Qed.

Lemma denseValues_lookup vrk vck st recs p :
  hashes_bounded st →
  denseValues vrk vck st recs !! p
  = foldl (pick (rowHash st) (colHash st) vrk vck (length (colsValues st)) p)
      (replicate (length (rowsValues st) * length (colsValues st)) ENull !! p)
      recs.
Proof.
  intros [Hr Hc]. unfold denseValues. rewrite nullMatrix_replicate.
  eapply loadCells_lookup.
  - by apply in_range_bounded.
  - by rewrite length_replicate.
Qed.

(** C1. Once [read] completes (annotation tables declared or discovered),
    [cells.values] has [rowCount * columnCount] elements, and the element of
    every row [i] and column [j] is [null] or a record of the cell table:
    no offset is left without a value. *)
Theorem read_values_dense h h' :
  read false h = Ok h' →
  length (values (cells h')) = rowCount h' * columnCount h' ∧
  ∀ i j, i < rowCount h' → j < columnCount h' →
    valueAt h' i j = Some ENull ∨
    ∃ r, ERec r ∈ values (cells h) ∧ valueAt h' i j = Some (ERec r).
Proof.
  intros (st & Hb & ->)%read_Ok_inv.
  pose proof (buildHashes_bounded _ _ _ _ _ _ Hb) as Hbd.
  unfold rowCount, columnCount, valueAt. simpl. split.
  - by apply denseValues_length.
  - intros i j Hi Hj. rewrite denseValues_lookup by done.
    rewrite lookup_replicate_2 by (unfold columnCount; simpl; nia).
    edestruct pick_cases as [Heq|(r & Hin & _ & Heq)]; rewrite Heq.
    + by left.
    + right. by exists r.
Qed.

(** ** Records that resolve nowhere, records that resolve to one place *)

Lemma position_None rh ch vrk vck cl r :
  rh !! propKey (aget r vrk) = None ∨ ch !! propKey (aget r vck) = None →
  position rh ch vrk vck cl r = None.
Proof.
  unfold position. intros [->| ->]; [done|].
  by destruct (rh !! _).
Qed.

Lemma loadCells_delete rh ch vrk vck cl (recs : list entry) k r cv :
  recs !! k = Some (ERec r) →
  position rh ch vrk vck cl r = None →
  loadCells rh ch vrk vck cl recs cv
  = loadCells rh ch vrk vck cl (delete k recs) cv.
Proof.
  intros Hk Hp. rewrite <- (take_drop_middle recs k (ERec r) Hk) at 1.
  rewrite delete_take_drop. unfold loadCells.
  rewrite !foldl_app. simpl. by rewrite Hp.
Qed.

(** C2. A record of the cell table whose row key or column key, as a
    property name, is in neither hash is dropped without a sound: [read]
    completes, the dense values are those of the cell table without that
    record, and every offset that no other record resolves to holds
    [null]. *)
Theorem unresolved_record_dropped h st k rec :
  let r := inferRow h in
  let c := inferCol h r in
  buildHashes h (axisKey r) (valuesKey r) (axisKey c) (valuesKey c) = Ok st →
  values (cells h) !! k = Some (ERec rec) →
  rowHash st !! propKey (aget rec (valuesKey r)) = None ∨
  colHash st !! propKey (aget rec (valuesKey c)) = None →
  ∃ h', read false h = Ok h' ∧
    values (cells h')
    = denseValues (valuesKey r) (valuesKey c) st (delete k (values (cells h))) ∧
    ∀ p, p < rowCount h' * columnCount h' →
      (∀ k' rec', k' ≠ k → values (cells h) !! k' = Some (ERec rec') →
         position (rowHash st) (colHash st) (valuesKey r) (valuesKey c)
           (columnCount h') rec' ≠ Some p) →
      values (cells h') !! p = Some ENull.
Proof.
  intros r c Hb Hk Hmiss.
  pose proof (buildHashes_bounded _ _ _ _ _ _ Hb) as Hbd.
  apply (position_None _ _ _ _ (length (colsValues st))) in Hmiss.
  eexists. split; [by apply read_Ok_intro|]. simpl. split.
  - unfold denseValues. by eapply loadCells_delete.
  - unfold rowCount, columnCount. simpl. intros p Hp Hothers.
    rewrite denseValues_lookup by done.
    rewrite pick_none; [by apply lookup_replicate_2|].
    intros rec' [k' Hk']%list_elem_of_lookup.
    destruct (decide (k' = k)) as [->|Hne].
    + rewrite Hk in Hk'. injection Hk' as <-. fold r c. by rewrite Hmiss.
    + by apply (Hothers k').
Qed.

(** C4. When two records of the cell table resolve to the same row and
    column, the earlier one does not survive: the offset
    [row * columnCount + col] holds the last record of the cell table that
    resolves there, which is the later of the two when none follows it. *)
Theorem last_record_wins h st i j ri rj row col :
  let r := inferRow h in
  let c := inferCol h r in
  let resolve := fun rec =>
    (rowHash st !! propKey (aget rec (valuesKey r)),
     colHash st !! propKey (aget rec (valuesKey c))) in
  buildHashes h (axisKey r) (valuesKey r) (axisKey c) (valuesKey c) = Ok st →
  i < j →
  values (cells h) !! i = Some (ERec ri) →
  values (cells h) !! j = Some (ERec rj) →
  resolve ri = (Some row, Some col) →
  resolve rj = (Some row, Some col) →
  ∃ h', read false h = Ok h' ∧
    (∃ k rk, j ≤ k ∧ values (cells h) !! k = Some (ERec rk) ∧
       resolve rk = (Some row, Some col) ∧
       valueAt h' row col = Some (ERec rk) ∧
       ∀ k' rk', k < k' → values (cells h) !! k' = Some (ERec rk') →
         resolve rk' ≠ (Some row, Some col)) ∧
    ((∀ k' rk', j < k' → values (cells h) !! k' = Some (ERec rk') →
        resolve rk' ≠ (Some row, Some col)) →
     valueAt h' row col = Some (ERec rj)).
Proof.
  intros r c resolve Hb Hij Hi Hj Hri Hrj.
  pose proof (buildHashes_bounded _ _ _ _ _ _ Hb) as [Hbr Hbc].
  set (cl := length (colsValues st)) in *.
  set (pos := position (rowHash st) (colHash st) (valuesKey r) (valuesKey c) cl).
  assert (row < length (rowsValues st) ∧ col < cl) as [Hrow Hcol].
  { injection Hrj as Hr Hc. split; [by eapply Hbr | by eapply Hbc]. }
  assert (∀ rec, resolve rec = (Some row, Some col) ↔
                 pos rec = Some (row * cl + col)) as Hres.
  { intros rec. unfold resolve, pos, position.
    destruct (rowHash st !! _) as [row'|] eqn:Hr';
      destruct (colHash st !! _) as [col'|] eqn:Hc'; try (split; congruence).
    split; [by intros [= -> ->]|]. intros [= Heq].
    apply Hbc in Hc'. fold cl in Hc'.
    assert (row' = row) as -> by nia. assert (col' = col) as -> by nia.
    done. }
  assert (valueAt
            (withAxes h r c st
               (Table (cellsHeader c)
                  (denseValues (valuesKey r) (valuesKey c) st
                     (values (cells h))) true)) row col
          = foldl (pick (rowHash st) (colHash st) (valuesKey r) (valuesKey c)
                     cl (row * cl + col)) (Some ENull) (values (cells h)))
    as Hval.
  { unfold valueAt, columnCount. simpl.
    rewrite denseValues_lookup by done. fold cl.
    by rewrite lookup_replicate_2 by nia. }
  eexists. split; [by apply read_Ok_intro|]. fold r c. rewrite Hval. split.
  - destruct (last_resolving _ _ _ _ _ _ _ _ _ Hj (proj1 (Hres rj) Hrj))
      as (k & rk & Hle & Hk & Hpk & Hlast).
    exists k, rk. split_and!; [done|done|by apply Hres| |].
    + rewrite <- (take_drop_middle _ _ _ Hk). apply pick_last; [done|].
      intros r' [n Hn]%list_elem_of_lookup. rewrite lookup_drop in Hn.
      apply (Hlast (S k + n)); [lia|done].
    + intros k' rk' Hlt Hk' Hr'. by apply (Hlast k' rk' Hlt Hk'), Hres.
  - intros Hlast. rewrite <- (take_drop_middle _ _ _ Hj). apply pick_last.
    + by apply Hres.
    + intros r' [n Hn]%list_elem_of_lookup. rewrite lookup_drop in Hn.
      intros Hp. apply (Hlast (S j + n) r'); [lia|done|by apply Hres].
Qed.

(** ** Key inference *)

Lemma strict_eq_string s y : strict_eq (VStr s) y = true ↔ y = VStr s.
Proof.
  destruct y as [| | |t]; simpl; try (split; [done | by intros [=]]).
  rewrite bool_decide_eq_true. split; [by intros -> | by intros [= ->]].
Qed.

Lemma differs_true k vk : differs k vk = true ↔ INum k ≠ vk.
Proof.
  destruct vk as [|z]; simpl; [done|].
  rewrite negb_true_iff, Z.eqb_neq. split; [congruence|].
  intros Hne ->. by apply Hne.
Qed.

Lemma inArray_from_cases e arr i :
  (inArray_from i e arr = (-1)%Z ∧ ∀ y, y ∈ arr → strict_eq e y = false) ∨
  ∃ k, inArray_from i e arr = (i + Z.of_nat k)%Z ∧
    (∃ y, arr !! k = Some y ∧ strict_eq e y = true) ∧
    ∀ n y, n < k → arr !! n = Some y → strict_eq e y = false.
Proof.
  revert i. induction arr as [|x t IH]; intros i; simpl.
  - left. split; [done|]. by intros y Hy%elem_of_nil.
  - destruct (strict_eq e x) eqn:Hx.
    + right. exists 0. split_and!; [lia|by exists x|]. intros n y Hn. lia.
    + destruct (IH (i + 1)%Z) as [[Hm Hall]|(k & Hk & Hy & Hmin)].
      * left. split; [done|]. by intros y [->|Hy]%elem_of_cons; [|apply Hall].
      * right. exists (S k). split_and!; [lia|done|].
        intros [|n] y Hn Hl; [by injection Hl as <-|].
        apply (Hmin n y); [lia|done].
Qed.

Lemma firstIndex_unique x arr k k' :
  firstIndex x arr k → firstIndex x arr k' → k = k'.
Proof.
  intros [(y & Hy & He) Hmin] [(y' & Hy' & He') Hmin'].
  destruct (Nat.lt_trichotomy k k') as [Hlt|[->|Hlt]]; [|done|].
  - specialize (Hmin' k y Hlt Hy). congruence.
  - specialize (Hmin k' y' Hlt Hy'). congruence.
Qed.

Lemma inArray_cases x arr :
  (inArray (norm x) arr = (-1)%Z ∧ ¬ occurs x arr) ∨
  ∃ k, inArray (norm x) arr = Z.of_nat k ∧ firstIndex x arr k.
Proof.
  unfold inArray.
  destruct (inArray_from_cases (norm x) arr 0) as [[Hm Hall]|(k & Hk & Hf)].
  - left. split; [done|]. intros (y & Hy & He). rewrite (Hall y Hy) in He.
    done.
  - right. exists k. split; [by rewrite Hk | done].
Qed.

Lemma inArray_firstIndex x arr k :
  firstIndex x arr k → inArray (norm x) arr = Z.of_nat k.
Proof.
  intros Hk. destruct (inArray_cases x arr) as [[_ Hno]|(k' & Hk' & Hf)].
  - exfalso. apply Hno. destruct Hk as [(y & Hy & He) _]. exists y.
    split; [|done]. apply list_elem_of_lookup. eauto.
  - by rewrite Hk', (firstIndex_unique _ _ _ _ Hk Hf).
Qed.

Lemma inArray_absent x arr : ¬ occurs x arr → inArray (norm x) arr = (-1)%Z.
Proof.
  intros Hno. destruct (inArray_cases x arr) as [[Hm _]|(k & _ & Hf)]; [done|].
  exfalso. apply Hno. destruct Hf as [(y & Hy & He) _]. exists y.
  split; [|done]. apply list_elem_of_lookup. eauto.
Qed.

Section scans.
Variable ch : list value.

Lemma rowKeyScan_found (hdr : list value) i0 vk i x k :
  hdr !! i = Some x → firstIndex x ch k →
  (∀ i' x', i' < i → hdr !! i' = Some x' → ¬ occurs x' ch) →
  rowKeyScan ch hdr i0 vk = (INum (i0 + Z.of_nat i), INum (Z.of_nat k)).
Proof.
  revert i0 vk i. induction hdr as [|x0 t IH]; intros i0 vk i Hi Hk Hbefore;
    [done|]. simpl. destruct i as [|i].
  - injection Hi as ->. rewrite (inArray_firstIndex _ _ _ Hk).
    replace (-1 <? Z.of_nat k)%Z with true by (symmetry; apply Z.ltb_lt; lia).
    do 2 f_equal. lia.
  - rewrite (inArray_absent x0) by (apply (Hbefore 0); [lia|done]). simpl.
    rewrite (IH _ _ i Hi Hk).
    + do 2 f_equal. lia.
    + intros i' x' Hlt. apply (Hbefore (S i')). lia.
Qed.

Lemma rowKeyScan_none (hdr : list value) i0 vk :
  (∀ x, x ∈ hdr → ¬ occurs x ch) →
  (rowKeyScan ch hdr i0 vk).1 = IUndef.
Proof.
  revert i0 vk. induction hdr as [|x0 t IH]; intros i0 vk Hno; [done|].
  simpl. rewrite (inArray_absent x0) by (apply Hno; by left). simpl.
  apply IH. intros x Hx. apply Hno. by right.
Qed.

Variable vrk : idx.

Abbreviation passed := (passed ch vrk).

Lemma colKeyScan_pass x0 :
  passed x0 →
  (-1 <? inArray (norm x0) ch)%Z && differs (inArray (norm x0) ch) vrk = false.
Proof.
  intros Hp. destruct (inArray_cases x0 ch) as [[-> _]|(k & -> & Hf)]; [done|].
  apply andb_false_iff. right. apply not_true_is_false.
  rewrite differs_true. intros Hne. apply Hne. by apply Hp.
Qed.

Lemma colKeyScan_found (hdr : list value) i0 vk j x k :
  hdr !! j = Some x → firstIndex x ch k → INum (Z.of_nat k) ≠ vrk →
  (∀ j' x', j' < j → hdr !! j' = Some x' → passed x') →
  colKeyScan ch vrk hdr i0 vk = (INum (i0 + Z.of_nat j), INum (Z.of_nat k)).
Proof.
  revert i0 vk j. induction hdr as [|x0 t IH]; intros i0 vk j Hj Hk Hne Hbefore;
    [done|]. simpl. destruct j as [|j].
  - injection Hj as ->. rewrite (inArray_firstIndex _ _ _ Hk).
    replace (-1 <? Z.of_nat k)%Z with true by (symmetry; apply Z.ltb_lt; lia).
    rewrite (proj2 (differs_true _ _) Hne). simpl. do 2 f_equal. lia.
  - rewrite colKeyScan_pass by (apply (Hbefore 0); [lia|done]).
    rewrite (IH _ _ j Hj Hk Hne).
    + do 2 f_equal. lia.
    + intros j' x' Hlt. apply (Hbefore (S j')). lia.
Qed.

Lemma colKeyScan_none (hdr : list value) i0 vk :
  (∀ x, x ∈ hdr → passed x) →
  (colKeyScan ch vrk hdr i0 vk).1 = IUndef.
Proof.
  revert i0 vk. induction hdr as [|x0 t IH]; intros i0 vk Hno; [done|].
  simpl. rewrite colKeyScan_pass by (apply Hno; by left).
  apply IH. intros x Hx. apply Hno. by right.
Qed.

Lemma colKeyScan_differs (hdr : list value) i0 vk j :
  (colKeyScan ch vrk hdr i0 vk).1 = INum j →
  (colKeyScan ch vrk hdr i0 vk).2 ≠ vrk.
Proof.
  revert i0 vk. induction hdr as [|x0 t IH]; intros i0 vk; simpl; [done|].
  destruct (_ && _) eqn:Hc; [|apply IH].
  intros _. apply andb_true_iff in Hc as [_ Hd]. by apply differs_true.
Qed.
End scans.

Lemma absent_passed ch vrk x : ¬ occurs x ch → passed ch vrk x.
Proof.
  intros Hno k [(y & Hy & He) _]. exfalso. apply Hno. exists y.
  split; [|done]. apply list_elem_of_lookup. eauto.
Qed.

(** C5. With a declared row table, [rowKey] is the first field of the row
    header that occurs in the cell header and [valuesRowKey] the first index
    at which it occurs there. With a declared column table the same holds
    of the column header, among the fields that do not first occur at
    [valuesRowKey]: the column loop passes over those, so that a column key,
    when one is found, is never the field of the cell header taken for the
    row key. *)
Theorem join_key_inference h :
  let r := inferRow h in
  let c := inferCol h r in
  (data_rows (options h) = true →
   cellsHeader r = header (cells h) ∧
   (∀ i x k,
      header (rows h) !! i = Some x →
      firstIndex x (header (cells h)) k →
      (∀ i' x', i' < i → header (rows h) !! i' = Some x' →
         ¬ occurs x' (header (cells h))) →
      axisKey r = INum (Z.of_nat i) ∧ valuesKey r = INum (Z.of_nat k)) ∧
   ((∀ x, x ∈ header (rows h) → ¬ occurs x (header (cells h))) →
    axisKey r = IUndef)) ∧
  (data_cols (options h) = true →
   (∀ j x k,
      header (cols h) !! j = Some x →
      firstIndex x (cellsHeader r) k →
      INum (Z.of_nat k) ≠ valuesKey r →
      (∀ j' x', j' < j → header (cols h) !! j' = Some x' →
         passed (cellsHeader r) (valuesKey r) x') →
      axisKey c = INum (Z.of_nat j) ∧ valuesKey c = INum (Z.of_nat k)) ∧
   ((∀ x, x ∈ header (cols h) → passed (cellsHeader r) (valuesKey r) x) →
    axisKey c = IUndef) ∧
   (∀ j, axisKey c = INum j → valuesKey c ≠ valuesKey r)).
Proof.
  intros r c. split.
  - intros Hd. subst r. unfold inferRow. rewrite Hd.
    destruct (rowKeyScan _ _ _ _) as [rowKey valuesRowKey] eqn:Hs. simpl.
    split_and!; [done| |].
    + intros i x k Hi Hk Hbefore.
      rewrite (rowKeyScan_found _ _ _ _ _ _ _ Hi Hk Hbefore) in Hs.
      by injection Hs as <- <-.
    + intros Hno. apply (rowKeyScan_none _ _ 0%Z IUndef) in Hno.
      by rewrite Hs in Hno.
  - intros Hd. subst c. unfold inferCol. rewrite Hd.
    destruct (colKeyScan _ _ _ _ _) as [colKey valuesColKey] eqn:Hs. simpl.
    split_and!.
    + intros j x k Hj Hk Hne Hbefore.
      rewrite (colKeyScan_found _ _ _ _ _ _ _ _ Hj Hk Hne Hbefore) in Hs.
      by injection Hs as <- <-.
    + intros Hno. apply (colKeyScan_none _ _ _ 0%Z IUndef) in Hno.
      by rewrite Hs in Hno.
    + intros j ->.
      pose proof (colKeyScan_differs (cellsHeader r) (valuesKey r)
                    (header (cols h)) 0%Z IUndef j) as Hdiff.
      rewrite Hs in Hdiff. by apply Hdiff.
Qed.

(** ** A failed inference *)

Lemma hashAxis_undefined_key e t i hash :
  hashAxis IUndef (e :: t) i hash = TypeError hash.
Proof. by destruct e. Qed.

Lemma heatmap_eta h :
  Heatmap (Table (header (rows h)) (values (rows h)) (ready (rows h)))
    (Table (header (cols h)) (values (cols h)) (ready (cols h)))
    (Table (header (cells h)) (values (cells h)) (ready (cells h)))
    (options h) = h.
Proof. by destruct h as [[] [] [] ?]. Qed.

Lemma hashAxis_Ok_iff key vals i hash :
  (∃ hash', hashAxis key vals i hash = Ok hash') ↔
  ∀ e, e ∈ vals → is_Some (keyString key e).
Proof.
  revert i hash. induction vals as [|e t IH]; intros i hash; simpl.
  - split; [by intros _ e ?%elem_of_nil | eauto].
  - fold (keyString key e). destruct (keyString key e) as [s|] eqn:He.
    + rewrite IH. split.
      * intros H e' [->|?]%elem_of_cons; [by rewrite He | by apply H].
      * intros H e' He'. apply H. by right.
    + split; [by intros [? ?]|]. intros H.
      destruct (H e) as [? Hs]; [by left|]. congruence.
Qed.

Lemma read_Ok_iff h :
  (∃ h', read false h = Ok h') ↔
  ∃ st, buildHashes h (axisKey (inferRow h)) (valuesKey (inferRow h))
          (axisKey (inferCol h (inferRow h)))
          (valuesKey (inferCol h (inferRow h))) = Ok st.
Proof.
  split.
  - intros [h' (st & Hb & _)%read_Ok_inv]. by exists st.
  - intros [st Hb]. eexists. by apply read_Ok_intro.
Qed.

Lemma table_eta t : Table (header t) (values t) (ready t) = t.
Proof. by destruct t. Qed.

Lemma declared_headers h :
  data_rows (options h) = true → data_cols (options h) = true →
  axisHeader (inferRow h) = header (rows h) ∧
  axisHeader (inferCol h (inferRow h)) = header (cols h) ∧
  cellsHeader (inferCol h (inferRow h)) = header (cells h).
Proof.
  intros Hr Hc. unfold inferCol, inferRow. rewrite Hr, Hc.
  destruct (rowKeyScan _ _ _ _). simpl. by destruct (colKeyScan _ _ _ _ _).
Qed.

Lemma rowKeyScan_none_values ch (hdr : list value) i0 vk :
  (∀ x, x ∈ hdr → ¬ occurs x ch) →
  (rowKeyScan ch hdr i0 vk).2 = vk ∨
  (rowKeyScan ch hdr i0 vk).2 = INum (-1).
Proof.
  revert i0 vk. induction hdr as [|x0 t IH]; intros i0 vk Hno; [by left|].
  simpl. rewrite (inArray_absent x0) by (apply Hno; by left). simpl. right.
  destruct (IH (i0 + 1)%Z (INum (-1))) as [->| ->]; try done.
  intros x Hx. apply Hno. by right.
Qed.

Lemma colKeyScan_none_values ch vrk (hdr : list value) i0 vk :
  (∀ x, x ∈ hdr → ¬ occurs x ch) →
  (colKeyScan ch vrk hdr i0 vk).2 = vk ∨
  (colKeyScan ch vrk hdr i0 vk).2 = INum (-1).
Proof.
  revert i0 vk. induction hdr as [|x0 t IH]; intros i0 vk Hno; [by left|].
  simpl. rewrite (inArray_absent x0) by (apply Hno; by left). simpl. right.
  destruct (IH (i0 + 1)%Z (INum (-1))) as [->| ->]; try done.
  intros x Hx. apply Hno. by right.
Qed.

(** A key field that no scan found reads [undefined] in every record. *)
Lemma unmatched_field vk r :
  vk = IUndef ∨ vk = INum (-1) → toString (aget r vk) = None.
Proof. by intros [->| ->]. Qed.

Lemma discover_undefined vk fields r hash vals :
  toString (aget r vk) = None → discover vk fields r hash vals = None.
Proof. unfold discover. by intros ->. Qed.

Lemma discoverAll_throws vrk vck rf cf recs st :
  (∀ r, toString (aget r vrk) = None) ∨ (∀ r, toString (aget r vck) = None) →
  (∃ r, ERec r ∈ recs) →
  ∃ st', discoverAll vrk vck rf cf recs st = TypeError st'.
Proof.
  intros Hkey. revert st. induction recs as [|e t IH]; intros st [r Hr];
    [by apply elem_of_nil in Hr|].
  destruct e as [| |r0]; simpl.
  - apply IH. apply elem_of_cons in Hr as [?|?]; [done|eauto].
  - apply IH. apply elem_of_cons in Hr as [?|?]; [done|eauto].
  - destruct Hkey as [Hrow|Hcol].
    + rewrite discover_undefined by done. eauto.
    + destruct (discover vrk rf r0 _ _) as [[rh rv]|]; [|eauto].
      rewrite discover_undefined by done. eauto.
Qed.

Lemma discoverAll_no_record vrk vck rf cf recs st :
  (∀ r, ERec r ∉ recs) → discoverAll vrk vck rf cf recs st = Ok st.
Proof.
  induction recs as [|e t IH]; intros Hno; [done|].
  destruct e as [| |r]; simpl.
  - apply IH. intros r Hr. apply (Hno r). by right.
  - apply IH. intros r Hr. apply (Hno r). by right.
  - exfalso. apply (Hno r). by left.
Qed.

(** C6, as the code has it. Nothing checks the outcome of the inference:
    an annotation table none of whose header fields occurs in the cell
    header leaves its keys [undefined], and what follows depends on the
    records. With both annotation tables declared, [read] ends either in
    the [TypeError] of the hash loop, the heatmap staying as the line loop
    left it, or with [cells.ready] set; it ends in the [TypeError] when the
    unmatched table has a record, and when it has none [read] completes
    exactly when every record of the other table has a string at its key.
    With one annotation table declared alone and unmatched, the pass over
    the cell table ends in a [TypeError] as soon as the cell table has a
    record, the records of the cell table and [cells.ready] staying as they
    were; with no record in the cell table [read] completes and sets
    [cells.ready]. *)
Theorem key_inference_failure h :
  let r := inferRow h in
  let c := inferCol h r in
  (data_rows (options h) = true → data_cols (options h) = true →
   (((∀ x, x ∈ header (rows h) → ¬ occurs x (header (cells h))) ∧
     values (rows h) ≠ []) ∨
    ((∀ x, x ∈ header (cols h) → ¬ occurs x (header (cells h))) ∧
     values (cols h) ≠ []) →
    read false h = TypeError h) ∧
   ((∀ x, x ∈ header (rows h) → ¬ occurs x (header (cells h))) →
    values (rows h) = [] →
    (∃ h', read false h = Ok h') ↔
    ∀ e, e ∈ values (cols h) → is_Some (keyString (axisKey c) e)) ∧
   ((∀ x, x ∈ header (cols h) → ¬ occurs x (header (cells h))) →
    values (cols h) = [] →
    (∃ h', read false h = Ok h') ↔
    ∀ e, e ∈ values (rows h) → is_Some (keyString (axisKey r) e)) ∧
   (∀ h', read false h = Ok h' → ready (cells h') = true) ∧
   (∀ h', read false h = TypeError h' → h' = h)) ∧
  (data_rows (options h) && data_cols (options h) = false →
   (data_rows (options h) = true ∧
    ∀ x, x ∈ header (rows h) → ¬ occurs x (header (cells h))) ∨
   (data_cols (options h) = true ∧
    ∀ x, x ∈ header (cols h) → ¬ occurs x (cellsHeader r)) →
   ((∃ rec, ERec rec ∈ values (cells h)) →
    ∃ h', read false h = TypeError h' ∧
      ready (cells h') = ready (cells h) ∧
      values (cells h') = values (cells h)) ∧
   ((∀ rec, ERec rec ∉ values (cells h)) →
    ∃ h', read false h = Ok h' ∧ ready (cells h') = true)).
Proof.
  intros r c. split.
  - intros Hr Hc.
    destruct (declared_headers h Hr Hc) as (Hrh & Hch & Hcells).
    fold r in Hrh, Hch, Hcells. fold c in Hch, Hcells.
    assert (cellsHeader r = header (cells h)) as Hcr.
    { subst r. unfold inferRow. rewrite Hr. by destruct (rowKeyScan _ _ _ _). }
    assert ((∀ x, x ∈ header (rows h) → ¬ occurs x (header (cells h))) →
            axisKey r = IUndef) as Hrnone.
    { intros Hno. apply (rowKeyScan_none _ _ 0%Z IUndef) in Hno.
      subst r. unfold inferRow. rewrite Hr.
      by destruct (rowKeyScan _ _ _ _); simpl in *. }
    assert ((∀ x, x ∈ header (cols h) → ¬ occurs x (header (cells h))) →
            axisKey c = IUndef) as Hcnone.
    { intros Hno.
      assert (∀ x, x ∈ header (cols h) →
                passed (cellsHeader r) (valuesKey r) x) as Hpass.
      { intros x Hx. apply absent_passed. rewrite Hcr. by apply Hno. }
      apply (colKeyScan_none _ _ _ 0%Z IUndef) in Hpass.
      subst c. unfold inferCol. rewrite Hc.
      by destruct (colKeyScan _ _ _ _ _); simpl in *. }
    assert (∀ st, buildHashes h (axisKey r) (valuesKey r) (axisKey c)
                    (valuesKey c) = TypeError st →
                  read false h = TypeError h) as Hthrow.
    { intros st Hb. unfold read. fold r. fold c. rewrite Hb.
      unfold buildHashes in Hb. rewrite Hr, Hc in Hb. simpl in Hb.
      assert (st = Hashes ∅ (values (rows h)) ∅ (values (cols h))) as ->.
      { destruct (hashAxis _ (values (rows h)) 0 ∅); [|by injection Hb].
        destruct (hashAxis _ (values (cols h)) 0 ∅); [done|by injection Hb]. }
      unfold withAxes. simpl. rewrite Hrh, Hch, Hcells.
      by rewrite heatmap_eta. }
    split_and!.
    + intros Hfail.
      apply (Hthrow (Hashes ∅ (values (rows h)) ∅ (values (cols h)))).
      unfold buildHashes. rewrite Hr, Hc. simpl.
      destruct Hfail as [[Hno Hne]|[Hno Hne]].
      * rewrite (Hrnone Hno). destruct (values (rows h)); [done|].
        by rewrite hashAxis_undefined_key.
      * rewrite (Hcnone Hno).
        destruct (hashAxis _ (values (rows h)) 0 ∅); [|done].
        destruct (values (cols h)); [done|].
        by rewrite hashAxis_undefined_key.
    + intros _ Hempty. rewrite read_Ok_iff. fold r. fold c.
      unfold buildHashes. rewrite Hr, Hc, Hempty. simpl.
      rewrite <- (hashAxis_Ok_iff (axisKey c) (values (cols h)) 0 ∅).
      destruct (hashAxis (axisKey c) _ 0 ∅) as [ch|ch].
      * split; eauto.
      * split; by intros [? ?].
    + intros _ Hempty. rewrite read_Ok_iff. fold r. fold c.
      unfold buildHashes. rewrite Hr, Hc, Hempty. simpl.
      rewrite <- (hashAxis_Ok_iff (axisKey r) (values (rows h)) 0 ∅).
      destruct (hashAxis (axisKey r) _ 0 ∅) as [rh|rh].
      * split; eauto.
      * split; by intros [? ?].
    + by intros h' (st & _ & ->)%read_Ok_inv.
    + intros h' Hread. pose proof Hread as Hread'. unfold read in Hread'.
      fold r in Hread'. fold c in Hread'.
      destruct (buildHashes h _ _ _ _) as [st|st] eqn:Hb; [done|].
      rewrite (Hthrow st eq_refl) in Hread. by injection Hread.
  - intros Hmode Hfail.
    assert ((∀ rec, toString (aget rec (valuesKey r)) = None) ∨
            (∀ rec, toString (aget rec (valuesKey c)) = None)) as Hkey.
    { destruct Hfail as [[Hr Hno]|[Hc Hno]].
      - left. intros rec. apply unmatched_field.
        apply (rowKeyScan_none_values _ _ 0%Z IUndef) in Hno.
        subst r. unfold inferRow. rewrite Hr.
        by destruct (rowKeyScan _ _ _ _); simpl in *.
      - right. intros rec. apply unmatched_field.
        apply (colKeyScan_none_values _ (valuesKey r) _ 0%Z IUndef) in Hno.
        subst c. unfold inferCol. rewrite Hc.
        by destruct (colKeyScan _ _ _ _ _); simpl in *. }
    split.
    + intros Hrec.
      destruct (discoverAll_throws (valuesKey r) (valuesKey c)
                  (fieldsOf (rows_annotations (options h)) (valuesKey r))
                  (fieldsOf (cols_annotations (options h)) (valuesKey c))
                  (values (cells h))
                  (Hashes ∅ (values (rows h)) ∅ (values (cols h))) Hkey Hrec)
        as [st' Hall].
      eexists. unfold read. fold r. fold c. unfold buildHashes.
      rewrite Hmode, Hall. done.
    + intros Hno. eexists. unfold read. fold r. fold c. unfold buildHashes.
      rewrite Hmode, discoverAll_no_record by done. done.
Qed.

(** ** Index discovery *)

Lemma assign_plain hash s i :
  inherited s = false → assign hash s i = <[s:=i]> hash.
Proof.
  intros Hs. unfold assign. case_decide as Hp; [|done].
  subst s. by rewrite inherited_proto in Hs.
Qed.

Section discovery.
Variables (vk : idx) (fields : list idx).

Lemma indexed_fresh seen recs k s r :
  indexed vk seen recs !! k = Some (s, r) →
  (s ∉ seen) ∧ inherited s = false.
Proof.
  revert seen k. induction recs as [|e t IH]; intros seen k; simpl; [done|].
  destruct e as [| |r0]; try apply IH.
  destruct (toString (aget r0 vk)) as [s0|]; [|done].
  case_decide as Hs0; [apply IH|].
  destruct (inherited s0) eqn:Hi0; [apply IH|].
  destruct k as [|k]; simpl.
  - by intros [= <- <-].
  - intros Hk. apply IH in Hk as [Hk ?]. split; [|done].
    intros Hin. apply Hk. by right.
Qed.

(** One record: the step of the loop agrees with [indexed]. *)
Lemma discover_indexed r s hash vals seen (t : list entry) :
  toString (aget r vk) = Some s → keys_of hash seen →
  ∃ hash' vals' seen',
    discover vk fields r hash vals = Some (hash', vals') ∧
    keys_of hash' seen' ∧
    indexed vk seen (ERec r :: t)
    = indexed vk seen [ERec r] ++ indexed vk seen' t ∧
    vals' = vals ++ map (axisRecord fields) (indexed vk seen [ERec r]) ∧
    numbered hash hash' (length vals) (indexed vk seen [ERec r]).
Proof.
  intros Hs Hkeys. unfold discover. simpl. rewrite Hs.
  assert (numbered hash hash (length vals) []) as Hskip.
  { intros s' p. split; [by left|]. by intros [?|(k & r' & ? & _)]. }
  destruct (decide (s ∈ seen)) as [Hin|Hnin].
  - destruct (proj1 (Hkeys s) Hin) as [p0 Hl].
    unfold isUndefined. rewrite Hl. exists hash, vals, seen.
    split_and!; [done|done|done|by rewrite app_nil_r|done].
  - assert (hash !! s = None) as Hl.
    { destruct (hash !! s) eqn:He; [|done]. exfalso. apply Hnin, Hkeys. eauto. }
    unfold isUndefined. rewrite Hl. destruct (inherited s) eqn:Hi; simpl.
    { exists hash, vals, seen.
      split_and!; [done|done|done|by rewrite app_nil_r|done]. }
    rewrite assign_plain by done.
    exists (<[s:=length vals]> hash), (vals ++ [ERec (map (aget r) fields)]),
      (s :: seen).
    split_and!; [done| |done|done|].
    + intros s'. rewrite elem_of_cons, lookup_insert.
      case_decide as Hd; [subst; split; eauto|].
      rewrite (Hkeys s'). split; [intros [->|?]; done|by right].
    + intros s' p. rewrite lookup_insert. case_decide as Hd.
      * subst s'. split.
        -- intros [= <-]. right. exists 0, r. split; [done|lia].
        -- intros [Hh|(k & r' & Hk & ->)]; [congruence|].
           destruct k; [f_equal; lia|done].
      * split; [by left|]. intros [?|(k & r' & Hk & _)]; [done|].
        destruct k; [|done]. simpl in Hk. congruence.
Qed.

Lemma numbered_trans hash1 hash2 hash3 n found1 found2 :
  numbered hash1 hash2 n found1 →
  numbered hash2 hash3 (n + length found1) found2 →
  numbered hash1 hash3 n (found1 ++ found2).
Proof.
  intros H12 H23 s p. rewrite (H23 s p), (H12 s p). split.
  - intros [[?|(k & r & Hk & ->)]|(k & r & Hk & ->)].
    + by left.
    + right. exists k, r. split; [|done]. by apply lookup_app_l_Some.
    + right. exists (length found1 + k), r. split; [|lia].
      by rewrite lookup_app_r, Nat.add_comm, Nat.add_sub by lia.
  - intros [?|(k & r & Hk & ->)]; [by left; left|].
    apply lookup_app_Some in Hk as [Hk|[Hle Hk]].
    + left. right. by exists k, r.
    + right. exists (k - length found1), r. split; [done|lia].
Qed.

Lemma numbered_skip hash n : numbered hash hash n [].
Proof.
  intros s p. split; [by left|]. by intros [?|(k & r & ? & _)].
Qed.
End discovery.

Lemma discoverAll_indexed vrk vck rf cf recs st seenR seenC :
  (∀ r, ERec r ∈ recs →
     is_Some (toString (aget r vrk)) ∧ is_Some (toString (aget r vck))) →
  keys_of (rowHash st) seenR → keys_of (colHash st) seenC →
  ∃ st', discoverAll vrk vck rf cf recs st = Ok st' ∧
    rowsValues st'
    = rowsValues st ++ map (axisRecord rf) (indexed vrk seenR recs) ∧
    colsValues st'
    = colsValues st ++ map (axisRecord cf) (indexed vck seenC recs) ∧
    numbered (rowHash st) (rowHash st') (length (rowsValues st))
      (indexed vrk seenR recs) ∧
    numbered (colHash st) (colHash st') (length (colsValues st))
      (indexed vck seenC recs).
Proof.
  revert st seenR seenC.
  induction recs as [|e t IH]; intros st seenR seenC Hkeys HR HC.
  - exists st. simpl. rewrite !app_nil_r.
    split_and!; [done..|apply numbered_skip|apply numbered_skip].
  - assert (∀ r, ERec r ∈ t →
              is_Some (toString (aget r vrk)) ∧
              is_Some (toString (aget r vck))) as Hkeys'.
    { intros r Hr. apply Hkeys. by right. }
    destruct e as [| |r]; try by apply IH.
    destruct (Hkeys r) as [[sr Hsr] [sc Hsc]]; [by left|].
    destruct (discover_indexed vrk rf r sr (rowHash st) (rowsValues st)
                seenR t Hsr HR)
      as (rh & rv & seenR' & HdR & HR' & HfR & -> & HnR).
    destruct (discover_indexed vck cf r sc (colHash st) (colsValues st)
                seenC t Hsc HC)
      as (ch & cv & seenC' & HdC & HC' & HfC & -> & HnC).
    destruct (IH (Hashes rh
                    (rowsValues st
                     ++ map (axisRecord rf) (indexed vrk seenR [ERec r]))
                    ch
                    (colsValues st
                     ++ map (axisRecord cf) (indexed vck seenC [ERec r])))
                seenR' seenC' Hkeys' HR' HC')
      as (st' & Hall & Hrv & Hcv & HnR' & HnC').
    exists st'. cbn [discoverAll discoverStep]. rewrite HdR, HdC.
    rewrite HfR, HfC, !map_app, !app_assoc.
    split_and!; [done..| |].
    + eapply numbered_trans; [done|].
      simpl in HnR'. by rewrite length_app, length_map in HnR'.
    + eapply numbered_trans; [done|].
      simpl in HnC'. by rewrite length_app, length_map in HnC'.
Qed.

Lemma indexed_complete vk seen recs r s :
  (∀ r', ERec r' ∈ recs → is_Some (toString (aget r' vk))) →
  ERec r ∈ recs → toString (aget r vk) = Some s → inherited s = false →
  s ∈ seen ∨ s ∈ (indexed vk seen recs).*1.
Proof.
  revert seen. induction recs as [|e t IH]; intros seen Hkeys Hin Hs Hplain;
    [by apply elem_of_nil in Hin|].
  assert (∀ r', ERec r' ∈ t → is_Some (toString (aget r' vk))) as Hkeys'.
  { intros r' Hr'. apply Hkeys. by right. }
  apply elem_of_cons in Hin as [<-|Hin]; simpl.
  - rewrite Hs, Hplain. case_decide; [by left|]. right. simpl. by left.
  - destruct e as [| |r0]; try by apply IH.
    destruct (Hkeys r0) as [s0 Hs0]; [by left|]. rewrite Hs0.
    case_decide; [by apply IH|].
    destruct (inherited s0); [by apply IH|].
    destruct (IH (s0 :: seen) Hkeys' Hin Hs Hplain) as [[->|?]%elem_of_cons|?].
    + right. simpl. by left.
    + by left.
    + right. simpl. by right.
Qed.

(** Where no key is an inherited name, the loop indexes what the
    specification says. *)
Lemma indexed_firstSeen vk seen recs :
  plainKeys vk recs → indexed vk seen recs = firstSeen vk seen recs.
Proof.
  revert seen. induction recs as [|e t IH]; intros seen Hplain; [done|].
  assert (plainKeys vk t) as Hplain'.
  { intros r s Hr. apply Hplain. by right. }
  destruct e as [| |r]; simpl; try by apply IH.
  destruct (toString (aget r vk)) as [s|] eqn:Hs; [|done].
  rewrite (Hplain r s) by (done || by left).
  case_decide; [by apply IH|]. by rewrite IH.
Qed.

Lemma firstSeen_fresh vk seen recs k s r :
  firstSeen vk seen recs !! k = Some (s, r) → s ∉ seen.
Proof.
  revert seen k. induction recs as [|e t IH]; intros seen k; simpl; [done|].
  destruct e as [| |r0]; try apply IH.
  destruct (toString (aget r0 vk)) as [s0|]; [|done].
  case_decide as Hs0; [apply IH|].
  destruct k as [|k]; simpl.
  - by intros [= <- <-].
  - intros Hk%IH. set_solver.
Qed.

Lemma firstSeen_NoDup vk seen recs : NoDup (firstSeen vk seen recs).*1.
Proof.
  revert seen. induction recs as [|e t IH]; intros seen; simpl;
    [apply NoDup_nil_2|].
  destruct e as [| |r]; try apply IH.
  destruct (toString (aget r vk)) as [s|]; [|apply NoDup_nil_2].
  case_decide; [apply IH|]. simpl. apply NoDup_cons_2; [|apply IH].
  intros [[s' r'] [Heq [k Hk]%list_elem_of_lookup]]%list_elem_of_fmap.
  simpl in Heq. subst s'. apply firstSeen_fresh in Hk. set_solver.
Qed.

Lemma discoverAll_skips_null vrk vck rf cf recs st :
  discoverAll vrk vck rf cf (List.filter isRecord recs) st
  = discoverAll vrk vck rf cf recs st.
Proof.
  revert st. induction recs as [|e t IH]; intros st; [done|].
  destruct e as [| |r]; simpl; try apply IH.
  destruct (discover vrk rf r _ _) as [[rh rv]|]; [|done].
  destruct (discover vck cf r _ _) as [[ch cv]|]; [|done].
  apply IH.
Qed.

Lemma keys_of_empty : keys_of ∅ [].
Proof.
  intros s. rewrite lookup_empty. split; [by intros ?%elem_of_nil|].
  by intros [? ?].
Qed.

Lemma numbered_from_empty found hash n :
  numbered ∅ hash n found →
  ∀ s p, hash !! s = Some p ↔ ∃ k r, found !! k = Some (s, r) ∧ p = n + k.
Proof.
  intros Hn s p. rewrite (Hn s p), lookup_empty.
  split; [by intros [?|?]|by right].
Qed.

(** C7, as the code has it. Without one of the two annotation tables, the
    hashes come from one pass over the cell table, in which elements that
    are not records count for nothing. When no key of the cell table is a
    name the hashes inherit from [Object.prototype], then for each axis the
    records that bring a key not seen before are, in the order of the cell
    table, given the positions that follow the axis records already there
    (0, 1, 2, ... only for an axis that starts empty), and each adds one
    axis record, made of the fields of the annotation list of the axis, or
    of the key field alone without such a list; a record whose key was seen
    adds nothing to the hash or to the axis records. *)
Theorem discovery_builds_indices h rowKey vrk colKey vck :
  let rf := match rows_annotations (options h) with
            | Some rowAnn => map INum rowAnn
            | None => [vrk]
            end in
  let cf := match cols_annotations (options h) with
            | Some colAnn => map INum colAnn
            | None => [vck]
            end in
  let foundR := firstSeen vrk [] (values (cells h)) in
  let foundC := firstSeen vck [] (values (cells h)) in
  data_rows (options h) && data_cols (options h) = false →
  (∀ r, ERec r ∈ values (cells h) →
     is_Some (toString (aget r vrk)) ∧ is_Some (toString (aget r vck))) →
  plainKeys vrk (values (cells h)) →
  plainKeys vck (values (cells h)) →
  ∃ st, buildHashes h rowKey vrk colKey vck = Ok st ∧
    discoverAll vrk vck rf cf (List.filter isRecord (values (cells h)))
      (Hashes ∅ (values (rows h)) ∅ (values (cols h))) = Ok st ∧
    rowsValues st
    = values (rows h) ++ map (λ sr, ERec (map (aget sr.2) rf)) foundR ∧
    colsValues st
    = values (cols h) ++ map (λ sr, ERec (map (aget sr.2) cf)) foundC ∧
    (∀ s p, rowHash st !! s = Some p ↔
       ∃ k r, foundR !! k = Some (s, r) ∧ p = rowCount h + k) ∧
    (∀ s p, colHash st !! s = Some p ↔
       ∃ k r, foundC !! k = Some (s, r) ∧ p = columnCount h + k) ∧
    NoDup foundR.*1 ∧ NoDup foundC.*1 ∧
    (∀ r, ERec r ∈ values (cells h) →
       is_Some (rowHash st !! propKey (aget r vrk)) ∧
       is_Some (colHash st !! propKey (aget r vck))).
Proof.
  intros rf cf foundR foundC Hmode Hkeys HplainR HplainC.
  assert (rf = fieldsOf (rows_annotations (options h)) vrk) as Hrf
    by (subst rf; by destruct (rows_annotations (options h))).
  assert (cf = fieldsOf (cols_annotations (options h)) vck) as Hcf
    by (subst cf; by destruct (cols_annotations (options h))).
  destruct (discoverAll_indexed vrk vck rf cf (values (cells h))
              (Hashes ∅ (values (rows h)) ∅ (values (cols h))) [] [] Hkeys
              keys_of_empty keys_of_empty)
    as (st & Hall & Hrv & Hcv & HnR & HnC).
  simpl in Hrv, Hcv, HnR, HnC.
  rewrite (indexed_firstSeen _ _ _ HplainR) in Hrv, HnR.
  rewrite (indexed_firstSeen _ _ _ HplainC) in Hcv, HnC.
  fold foundR in Hrv, HnR. fold foundC in Hcv, HnC.
  assert (∀ vk hash n,
            plainKeys vk (values (cells h)) →
            numbered ∅ hash n (firstSeen vk [] (values (cells h))) →
            (∀ r, ERec r ∈ values (cells h) →
               is_Some (toString (aget r vk))) →
            ∀ r, ERec r ∈ values (cells h) →
              is_Some (hash !! propKey (aget r vk))) as Hall_keys.
  { intros vk hash n Hplain Hn Hstr r Hr. destruct (Hstr r Hr) as [s Hs].
    replace (propKey (aget r vk)) with s
      by (by destruct (aget r vk); simplify_eq/=).
    rewrite <- (indexed_firstSeen _ _ _ Hplain) in Hn.
    destruct (indexed_complete vk [] _ r s Hstr Hr Hs (Hplain r s Hr Hs))
      as [?%elem_of_nil|Hin]; [done|].
    apply list_elem_of_fmap in Hin as ([s' r'] & -> & [k Hk]%list_elem_of_lookup).
    exists (n + k). apply (numbered_from_empty _ _ _ Hn). by exists k, r'. }
  exists st. unfold buildHashes. rewrite Hmode, discoverAll_skips_null.
  rewrite <- Hrf, <- Hcf.
  split_and!; [done..| | | | |].
  - by apply numbered_from_empty.
  - by apply numbered_from_empty.
  - apply firstSeen_NoDup.
  - apply firstSeen_NoDup.
  - intros r Hr. split.
    + apply (Hall_keys vrk _ _ HplainR HnR); [|done]. intros r' Hr'.
      by apply Hkeys.
    + apply (Hall_keys vck _ _ HplainC HnC); [|done]. intros r' Hr'.
      by apply Hkeys.
Qed.

(** ** The wide format *)

Lemma cdmCells_length r columns : length (cdmCells r columns) = columns.
Proof. unfold cdmCells. by rewrite length_map, length_seq. Qed.

Lemma cdmCells_lookup r columns j :
  j < columns →
  cdmCells r columns !! j = Some (ERec [aget r (INum (Z.of_nat j + 1))]).
Proof.
  intros Hj. unfold cdmCells. rewrite list_lookup_fmap.
  by rewrite lookup_seq_lt.
Qed.

(** The row loop keeps every record, whatever its length. *)
Lemma cdmRows_records columns (recs : list (list value)) rv cv :
  ∃ cv', cdmRows columns (map ERec recs) rv cv
         = Ok (rv ++ map (λ r, ERec [aget r (INum 0)]) recs, cv ++ cv') ∧
    length cv' = length recs * columns ∧
    ∀ i r j, recs !! i = Some r → j < columns →
      cv' !! (i * columns + j) = Some (ERec [aget r (INum (Z.of_nat j + 1))]).
Proof.
  revert rv cv. induction recs as [|r0 t IH]; intros rv cv;
    cbn [cdmRows map length].
  - exists []. by rewrite !app_nil_r.
  - destruct (IH (rv ++ [ERec [aget r0 (INum 0)]]) (cv ++ cdmCells r0 columns))
      as (cv' & Hrows & Hlen & Hcells).
    exists (cdmCells r0 columns ++ cv'). rewrite Hrows.
    split_and!.
    + by rewrite <- !app_assoc.
    + rewrite length_app, cdmCells_length. lia.
    + intros [|i] r j Hi Hj; simpl in Hi.
      * injection Hi as ->. rewrite lookup_app_l
          by (rewrite cdmCells_length; lia).
        by apply cdmCells_lookup.
      * rewrite lookup_app_r by (rewrite cdmCells_length; lia).
        rewrite cdmCells_length.
        replace (S i * columns + j - columns) with (i * columns + j) by lia.
        by apply Hcells.
Qed.

(** C10, as the code has it. In the wide format no record is dropped and
    nothing is counted: every record of the cell table, whatever the number
    of its fields, adds one row and one cell for each column, the cell of
    column [j] holding field [j + 1] of the record ([undefined] beyond its
    end). *)
Theorem wide_format_keeps_records h (recs : list (list value)) :
  values (cells h) = map ERec recs →
  ∃ h', readCdm h = Ok h' ∧
    values (rows h')
    = values (rows h) ++ map (λ r, ERec [aget r (INum 0)]) recs ∧
    columnCount h' = columnCount h + length (header (cells h)) ∧
    length (values (cells h')) = length recs * columnCount h' ∧
    ∀ i r j, recs !! i = Some r → j < columnCount h' →
      values (cells h') !! (i * columnCount h' + j)
      = Some (ERec [aget r (INum (Z.of_nat j + 1))]).
Proof.
  intros Hrecs. unfold readCdm. rewrite Hrecs. cbn [values].
  destruct (cdmRows_records
              (length (cdmCols (header (cells h)) (values (cols h))))
              recs (values (rows h)) []) as (cv' & -> & Hlen & Hcells).
  eexists. split; [done|]. unfold columnCount. cbn [rows cols cells values].
  split_and!; [done| |done|done].
  unfold cdmCols. by rewrite length_app, length_map.
Qed.

Lemma cdmRows_Ok_inv columns recs rv cv rv' cv' :
  cdmRows columns recs rv cv = Ok (rv', cv') →
  ∃ new, rv' = rv ++ new ∧ ∀ e, e ∈ new → ∃ v, e = ERec [v].
Proof.
  revert rv cv. induction recs as [|e t IH]; intros rv cv; simpl.
  - intros [= <- <-]. exists []. split; [by rewrite app_nil_r|].
    by intros e ?%elem_of_nil.
  - destruct e as [| |r]; [done..|].
    intros (new & -> & Hnew)%IH.
    exists (ERec [aget r (INum 0)] :: new). split; [by rewrite <- app_assoc|].
    intros e [->|He]%elem_of_cons; [eauto | by apply Hnew].
Qed.

(** C8, as the code has it. A completed [CdmMatrixReader.read] leaves the
    row header [["Row"]], the column header [["Column"]] and the cell header
    [["Value"]], and every axis record it adds has one field. Every field of
    the header of the file is a column: under the header [col1, col2] the
    sample records give 2 rows, 2 columns, [col1] as the key of column 0 and
    [["0.21"]] at row 1, column 0; under the header [Row, col1, col2] they
    give 3 columns, [Row] being the key of column 0. *)
Theorem wide_format_shape :
  (∀ h h', readCdm h = Ok h' →
     header (rows h') = [VStr "Row"] ∧
     header (cols h') = [VStr "Column"] ∧
     header (cells h') = [VStr "Value"] ∧
     (∀ e, e ∈ values (rows h') → e ∈ values (rows h) ∨ ∃ v, e = ERec [v]) ∧
     (∀ e, e ∈ values (cols h') → e ∈ values (cols h) ∨ ∃ v, e = ERec [v])) ∧
  (∃ h', readCdm wideSample = Ok h' ∧
     rowCount h' = 2 ∧ columnCount h' = 2 ∧
     colKeyAt h' (INum 0) 0 = Some (VStr "col1") ∧
     valueAt h' 1 0 = Some (ERec [VStr "0.21"])) ∧
  (∃ h', readCdm wideLabelled = Ok h' ∧
     rowCount h' = 2 ∧ columnCount h' = 3 ∧
     colKeyAt h' (INum 0) 0 = Some (VStr "Row") ∧
     colKeyAt h' (INum 0) 1 = Some (VStr "col1") ∧
     valueAt h' 1 0 = Some (ERec [VStr "0.21"])).
Proof.
  split_and!.
  - intros h h'. unfold readCdm.
    destruct (cdmRows _ _ _ _) as [[rv cv]|[rv cv]] eqn:Hrows; [|done].
    intros [= <-]. cbn [rows cols cells header values].
    split_and!; [done..| |].
    + apply cdmRows_Ok_inv in Hrows as (new & -> & Hnew).
      intros e [?|?]%elem_of_app; [by left | right; by apply Hnew].
    + unfold cdmCols. intros e [?|He]%elem_of_app; [by left|right].
      apply list_elem_of_fmap in He as (x & -> & _). eauto.
  - eexists. split; [reflexivity|]. by vm_compute.
  - eexists. split; [reflexivity|]. by vm_compute.
Qed.

(** ** The hashes of declared tables *)

Lemma hashAxis_spec key vals i hash hash' :
  hashAxis key vals i hash = Ok hash' →
  ∀ s p, hash' !! s = Some p ↔
    (s ≠ "__proto__" ∧ ∃ k, p = i + k ∧ lastOccurrence key vals s k) ∨
    (hash !! s = Some p ∧
     (s = "__proto__" ∨ ∀ e, e ∈ vals → keyString key e ≠ Some s)).
Proof.
  revert i hash. induction vals as [|e t IH]; intros i hash; simpl.
  - intros [= <-] s p. split.
    + intros Hs. right. split; [done|]. right. by intros e ?%elem_of_nil.
    + by intros [(_ & k & _ & (e & ? & _) & _)|[? _]].
  - fold (keyString key e). destruct (keyString key e) as [s0|] eqn:He; [|done].
    intros Hh s p. rewrite (IH _ _ Hh s p). split.
    + intros [(Hne & k & -> & (e' & Hk & Hs) & Hlast)|[Hins Hor]].
      * left. split; [done|]. exists (S k). split; [lia|].
        split; [by exists e'|].
        intros [|k'] e'' Hlt Hk'; [lia|]. apply (Hlast k' e''); [lia|done].
      * rewrite lookup_assign in Hins. case_decide as Hd.
        -- destruct Hd as [-> Hnp]. injection Hins as <-.
           destruct Hor as [->|Hnone]; [done|].
           left. split; [done|]. exists 0.
           split; [lia|]. split; [by exists e|].
           intros [|k'] e' Hlt Hk'; [lia|]. apply Hnone.
           apply list_elem_of_lookup. eauto.
        -- right. split; [done|]. destruct Hor as [->|Hnone]; [by left|].
           destruct (decide (s = "__proto__")) as [->|Hnp]; [by left|].
           right. intros e' [->|?]%elem_of_cons; [|by apply Hnone].
           intros He'. apply Hd. split; congruence.
    + intros [(Hne & k & -> & (e' & Hk & Hs) & Hlast)|[Hins Hor]].
      * destruct k as [|k].
        -- right. injection Hk as <-. assert (s0 = s) as -> by congruence.
           rewrite lookup_assign, decide_True, Nat.add_0_r by done.
           split; [done|]. right.
           intros e' [k' Hk']%list_elem_of_lookup.
           apply (Hlast (S k') e'); [lia|done].
        -- left. split; [done|]. exists k. split; [lia|].
           split; [by exists e'|].
           intros k' e'' Hlt Hk'. apply (Hlast (S k') e''); [lia|done].
      * right. split.
        -- rewrite lookup_assign. case_decide as Hd; [|done].
           destruct Hd as [-> Hnp]. destruct Hor as [->|Hnone]; [done|].
           exfalso. apply (Hnone e); [by left|done].
        -- destruct Hor as [->|Hnone]; [by left|]. right.
           intros e' He'. apply Hnone. by right.
Qed.

(** From the empty hash: the keys a declared table is indexed by. *)
Lemma hashAxis_index key vals hash :
  hashAxis key vals 0 ∅ = Ok hash →
  ∀ s p, hash !! s = Some p ↔ s ≠ "__proto__" ∧ lastOccurrence key vals s p.
Proof.
  intros Hh s p. rewrite (hashAxis_spec _ _ _ _ _ Hh s p), lookup_empty.
  split.
  - intros [(? & k & -> & Hk)|[? _]]; done.
  - intros [? Hk]. left. split; [done|]. by exists p.
Qed.

Lemma keyAt_keyString vals key k e s :
  vals !! k = Some e → keyString key e = Some s →
  keyAt vals key k = Some (VStr s).
Proof.
  intros Hk Hs. unfold keyAt. rewrite Hk.
  destruct e as [| |r]; [done..|]. unfold keyString in Hs. simpl in Hs.
  by destruct (aget r key); try done; injection Hs as ->.
Qed.

Lemma discover_lookup vk fields r hash vals hash' vals' s p :
  discover vk fields r hash vals = Some (hash', vals') →
  hash' !! s = Some p → hash !! s = Some p ∨ length vals ≤ p.
Proof.
  unfold discover. destruct (toString _) as [s0|]; [|done].
  destruct (isUndefined hash s0); intros [= <- <-]; [|by left].
  rewrite lookup_assign. case_decide; [intros [= <-]; by right | by left].
Qed.

Lemma discover_length vk fields r hash vals hash' vals' :
  discover vk fields r hash vals = Some (hash', vals') →
  length vals ≤ length vals'.
Proof.
  unfold discover. destruct (toString _) as [s0|]; [|done].
  destruct (isUndefined hash s0); intros [= <- <-]; [|done].
  rewrite length_app. lia.
Qed.

(** The discovery loop numbers nothing below the axis records it starts
    from. *)
Lemma discoverAll_lookup vrk vck rf cf recs st st' n m :
  discoverAll vrk vck rf cf recs st = Ok st' →
  n ≤ length (rowsValues st) → m ≤ length (colsValues st) →
  (∀ s p, rowHash st !! s = Some p → n ≤ p) →
  (∀ s p, colHash st !! s = Some p → m ≤ p) →
  (∀ s p, rowHash st' !! s = Some p → n ≤ p) ∧
  (∀ s p, colHash st' !! s = Some p → m ≤ p).
Proof.
  revert st. induction recs as [|e t IH]; intros st; simpl.
  - by intros [= <-].
  - destruct e as [| |r]; simpl; try apply IH.
    destruct (discover vrk rf r _ _) as [[rh rv]|] eqn:Hr; [|done].
    destruct (discover vck cf r _ _) as [[ch cv]|] eqn:Hc; [|done].
    intros Hall Hn Hm HR HC. apply (IH _ Hall); simpl.
    + apply discover_length in Hr. lia.
    + apply discover_length in Hc. lia.
    + intros s p Hs. destruct (discover_lookup _ _ _ _ _ _ _ _ _ Hr Hs);
        [by eapply HR | lia].
    + intros s p Hs. destruct (discover_lookup _ _ _ _ _ _ _ _ _ Hc Hs);
        [by eapply HC | lia].
Qed.

(** C3, as the code has it. The hashes are built from the annotation tables
    only when both are declared. Each hash then maps a key other than
    [__proto__] to the position of the last record of its axis table that
    has the key: a later record with the same key takes the place of an
    earlier one; and the positions a hash holds have different keys two by
    two. With one table declared alone, no record of that table is indexed:
    the hashes come from the pass over the cell table, and every position
    they hold lies behind the records the axis tables had. *)
Theorem declared_index_last_occurrence h rowKey vrk colKey vck st :
  buildHashes h rowKey vrk colKey vck = Ok st →
  (data_rows (options h) = true → data_cols (options h) = true →
   (∀ s p, s ≠ "__proto__" →
      rowHash st !! s = Some p ↔
      lastOccurrence rowKey (values (rows h)) s p) ∧
   (∀ s p, s ≠ "__proto__" →
      colHash st !! s = Some p ↔
      lastOccurrence colKey (values (cols h)) s p) ∧
   (∀ s1 s2 i1 i2, rowHash st !! s1 = Some i1 → rowHash st !! s2 = Some i2 →
      i1 ≠ i2 → rowKeyAt h rowKey i1 ≠ rowKeyAt h rowKey i2) ∧
   (∀ s1 s2 j1 j2, colHash st !! s1 = Some j1 → colHash st !! s2 = Some j2 →
      j1 ≠ j2 → colKeyAt h colKey j1 ≠ colKeyAt h colKey j2)) ∧
  (data_rows (options h) && data_cols (options h) = false →
   discoverAll vrk vck
     (match rows_annotations (options h) with
      | Some rowAnn => map INum rowAnn
      | None => [vrk]
      end)
     (match cols_annotations (options h) with
      | Some colAnn => map INum colAnn
      | None => [vck]
      end)
     (values (cells h)) (Hashes ∅ (values (rows h)) ∅ (values (cols h)))
   = Ok st ∧
   (∀ s p, rowHash st !! s = Some p → rowCount h ≤ p) ∧
   (∀ s p, colHash st !! s = Some p → columnCount h ≤ p)).
Proof.
  intros Hb. split.
  - intros Hr Hc. unfold buildHashes in Hb. rewrite Hr, Hc in Hb.
    simpl in Hb.
    destruct (hashAxis rowKey _ 0 ∅) as [rh|] eqn:Hrh; [|done].
    destruct (hashAxis colKey _ 0 ∅) as [ch|] eqn:Hch; [|done].
    injection Hb as <-. simpl.
    assert (∀ key vals hash, hashAxis key vals 0 ∅ = Ok hash →
              ∀ s1 s2 i1 i2, hash !! s1 = Some i1 → hash !! s2 = Some i2 →
                i1 ≠ i2 → keyAt vals key i1 ≠ keyAt vals key i2) as Hdist.
    { intros key vals hash Hh s1 s2 i1 i2 H1 H2 Hne Heq.
      pose proof H1 as H1'. pose proof H2 as H2'.
      apply (hashAxis_index _ _ _ Hh) in H1' as (_ & (e1 & Hk1 & Hs1) & _).
      apply (hashAxis_index _ _ _ Hh) in H2' as (_ & (e2 & Hk2 & Hs2) & _).
      rewrite (keyAt_keyString _ _ _ _ _ Hk1 Hs1) in Heq.
      rewrite (keyAt_keyString _ _ _ _ _ Hk2 Hs2) in Heq.
      injection Heq as ->. congruence. }
    split_and!.
    + intros s p Hne. rewrite (hashAxis_index _ _ _ Hrh s p). tauto.
    + intros s p Hne. rewrite (hashAxis_index _ _ _ Hch s p). tauto.
    + by apply (Hdist _ _ _ Hrh).
    + by apply (Hdist _ _ _ Hch).
  - intros Hmode. unfold buildHashes in Hb. rewrite Hmode in Hb.
    assert (∀ ann vk, fieldsOf ann vk
                      = match ann with
                        | Some l => map INum l
                        | None => [vk]
                        end) as Hf by (by intros [l|] vk).
    rewrite !Hf in Hb. split; [done|].
    apply (discoverAll_lookup _ _ _ _ _ _ _ _ _ Hb); simpl; try done.
Qed.

(** ** The default keys of discovery *)

Lemma discover_axis_record vk fields r hash vals hash' vals' :
  discover vk fields r hash vals = Some (hash', vals') →
  vals' = vals ∨ vals' = vals ++ [ERec (map (aget r) fields)].
Proof.
  unfold discover. destruct (toString _); [|done].
  destruct (isUndefined _ _); intros [= <- <-]; [by right | by left].
Qed.

Lemma discoverAll_axis_records vrk vck rf cf recs st st' :
  discoverAll vrk vck rf cf recs st = Ok st' →
  (∀ e, e ∈ rowsValues st' →
     e ∈ rowsValues st ∨ ∃ r, ERec r ∈ recs ∧ e = ERec (map (aget r) rf)) ∧
  (∀ e, e ∈ colsValues st' →
     e ∈ colsValues st ∨ ∃ r, ERec r ∈ recs ∧ e = ERec (map (aget r) cf)).
Proof.
  revert st. induction recs as [|e0 t IH]; intros st; simpl.
  - intros [= <-]. split; intros e He; by left.
  - destruct (discoverStep vrk vck rf cf st e0) as [st1|] eqn:Hstep; [|done].
    intros [Hrows Hcols]%IH.
    assert ((∀ e, e ∈ rowsValues st1 → e ∈ rowsValues st ∨
               ∃ r, e0 = ERec r ∧ e = ERec (map (aget r) rf)) ∧
            (∀ e, e ∈ colsValues st1 → e ∈ colsValues st ∨
               ∃ r, e0 = ERec r ∧ e = ERec (map (aget r) cf)))
      as [Hrows1 Hcols1].
    { unfold discoverStep in Hstep.
      destruct e0 as [| |r]; try (injection Hstep as <-; split; by left).
      destruct (discover vrk rf r _ _) as [[rh rv]|] eqn:Hr; [|done].
      destruct (discover vck cf r _ _) as [[ch cv]|] eqn:Hc; [|done].
      injection Hstep as <-. simpl.
      apply discover_axis_record in Hr as [->| ->];
        apply discover_axis_record in Hc as [->| ->]; split; intros e He;
        try (by left);
        apply elem_of_app in He as [?|He%list_elem_of_singleton];
        try (by left); subst e; right; by exists r. }
    split; intros e He.
    + destruct (Hrows e He) as [He1|(r & Hr & ->)].
      * destruct (Hrows1 e He1) as [?|(r & -> & ->)]; [by left|].
        right. exists r. split; [by left|done].
      * right. exists r. split; [by right|done].
    + destruct (Hcols e He) as [He1|(r & Hr & ->)].
      * destruct (Hcols1 e He1) as [?|(r & -> & ->)]; [by left|].
        right. exists r. split; [by left|done].
      * right. exists r. split; [by right|done].
Qed.

(** C9. An axis with neither an annotation table nor a list of annotation
    fields takes its key from a fixed field of the cell table, field 1 for
    the rows and field 0 for the columns, and the name of that field is its
    whole header. When this holds of both axes, a completed [read] leaves
    these headers, and the axis records it adds are the field 1, and the
    field 0, of records of the cell table. *)
Theorem default_discovery_keys h :
  (data_rows (options h) = false → rows_annotations (options h) = None →
   inferRow h
   = Inferred (INum 0) (INum 1) [aget (header (cells h)) (INum 1)]
       (header (cells h))) ∧
  (data_cols (options h) = false → cols_annotations (options h) = None →
   ∀ r, inferCol h r
        = Inferred (INum 0) (INum 0) [aget (cellsHeader r) (INum 0)]
            (cellsHeader r)) ∧
  (data_rows (options h) = false → rows_annotations (options h) = None →
   data_cols (options h) = false → cols_annotations (options h) = None →
   ∀ h', read false h = Ok h' →
     header (rows h') = [aget (header (cells h)) (INum 1)] ∧
     header (cols h') = [aget (header (cells h)) (INum 0)] ∧
     (∀ e, e ∈ values (rows h') →
        e ∈ values (rows h) ∨
        ∃ r, ERec r ∈ values (cells h) ∧ e = ERec [aget r (INum 1)]) ∧
     (∀ e, e ∈ values (cols h') →
        e ∈ values (cols h) ∨
        ∃ r, ERec r ∈ values (cells h) ∧ e = ERec [aget r (INum 0)])).
Proof.
  assert (data_rows (options h) = false → rows_annotations (options h) = None →
          inferRow h
          = Inferred (INum 0) (INum 1) [aget (header (cells h)) (INum 1)]
              (header (cells h))) as Hrow.
  { intros Hd Ha. unfold inferRow. by rewrite Hd, Ha. }
  assert (data_cols (options h) = false → cols_annotations (options h) = None →
          ∀ r, inferCol h r
               = Inferred (INum 0) (INum 0) [aget (cellsHeader r) (INum 0)]
                   (cellsHeader r)) as Hcol.
  { intros Hd Ha r. unfold inferCol. by rewrite Hd, Ha. }
  split_and!; [done|done|].
  intros Hdr Har Hdc Hac h' (st & Hb & ->)%read_Ok_inv.
  rewrite (Hcol Hdc Hac), (Hrow Hdr Har) in *. simpl in *.
  split_and!; [done|done| |].
  - unfold buildHashes in Hb. rewrite Hdr, Har, Hac in Hb. simpl in Hb.
    by apply discoverAll_axis_records in Hb as [Hrows _].
  - unfold buildHashes in Hb. rewrite Hdr, Har, Hac in Hb. simpl in Hb.
    by apply discoverAll_axis_records in Hb as [_ Hcols].
Qed.

(** ** The properties on the samples *)

Lemma firstIndex_inArray x arr k :
  inArray (norm x) arr = Z.of_nat k → firstIndex x arr k.
Proof.
  intros Hk. destruct (inArray_cases x arr) as [[Hm _]|(k' & Hk' & Hf)]; [lia|].
  by replace k with k' by lia.
Qed.

Lemma absent_inArray x arr : inArray (norm x) arr = (-1)%Z → ¬ occurs x arr.
Proof.
  intros Hm. destruct (inArray_cases x arr) as [[_ Hno]|(k' & Hk' & _)];
    [done|lia].
Qed.

Lemma passed_inArray ch vrk x :
  INum (inArray (norm x) ch) = vrk → passed ch vrk x.
Proof. intros <- k Hk. by rewrite (inArray_firstIndex _ _ _ Hk). Qed.

Lemma read_values_dense_witness :
  ∃ h', read false declaredSample = Ok h' ∧
    length (values (cells h')) = rowCount h' * columnCount h'.
Proof.
  eexists. split; [vm_compute; reflexivity|].
  apply (read_values_dense declaredSample). vm_compute. reflexivity.
Defined.

Lemma unresolved_record_dropped_witness :
  ∃ h', read false declaredSample = Ok h' ∧
    values (cells h') !! 2 = Some ENull.
Proof.
  destruct (unresolved_record_dropped declaredSample declaredHashes 2
              (strings ["zz"; "c2"; "7"])) as (h' & Hread & _ & Hnull).
  - vm_compute. reflexivity.
  - reflexivity.
  - left. vm_compute. reflexivity.
  - exists h'. split; [exact Hread|].
    assert (columnCount h' = 2 ∧ rowCount h' = 3) as [Hcc Hrc].
    { vm_compute in Hread. injection Hread as <-. by vm_compute. }
    apply Hnull; rewrite Hcc; [rewrite Hrc; lia|].
    intros [|[|[|k']]] rec' Hne Hk'; try done; injection Hk' as <-;
      vm_compute; discriminate.
Defined.

Lemma last_record_wins_witness :
  ∃ h', read false declaredSample = Ok h' ∧
    valueAt h' 2 1 = Some (ERec (strings ["b"; "c2"; "6"])).
Proof.
  destruct (last_record_wins declaredSample declaredHashes 0 1
              (strings ["b"; "c2"; "5"]) (strings ["b"; "c2"; "6"]) 2 1)
    as (h' & Hread & _ & Hlast).
  - vm_compute. reflexivity.
  - lia.
  - reflexivity.
  - reflexivity.
  - vm_compute. reflexivity.
  - vm_compute. reflexivity.
  - exists h'. split; [exact Hread|]. apply Hlast.
    intros [|[|[|k']]] rk' Hlt Hk'; try lia; try done.
    injection Hk' as <-. vm_compute. discriminate.
Defined.

Lemma join_key_inference_witness :
  let r := inferRow declaredSample in
  let c := inferCol declaredSample r in
  (axisKey r = INum 0 ∧ valuesKey r = INum 0) ∧
  (axisKey c = INum 1 ∧ valuesKey c = INum 1) ∧
  valuesKey c ≠ valuesKey r.
Proof.
  intros r c.
  destruct (join_key_inference declaredSample) as [Hrow Hcol].
  destruct (Hrow eq_refl) as (_ & Hfirst & _).
  destruct (Hcol eq_refl) as (_ & _ & Hdiff).
  split; [|split].
  - apply (Hfirst 0 (VStr "id") 0); [reflexivity| |intros; lia].
    apply firstIndex_inArray. reflexivity.
  - destruct (Hcol eq_refl) as (Hcfirst & _ & _).
    apply (Hcfirst 1 (VStr "cname") 1); [reflexivity| | |].
    + apply firstIndex_inArray. reflexivity.
    + vm_compute. discriminate.
    + intros [|j'] x' Hlt Hx'; [|lia]. injection Hx' as <-.
      apply passed_inArray. reflexivity.
  - apply (Hdiff 1%Z). reflexivity.
Defined.

Lemma key_inference_failure_witness :
  read false unmatchedRows = TypeError unmatchedRows ∧
  (∃ h', read false unmatchedSample = Ok h' ∧ ready (cells h') = true) ∧
  ∃ h', read false unmatchedAlone = TypeError h' ∧
    ready (cells h') = false ∧
    values (cells h') = [ERec (strings ["c1"; "r1"; "5"])].
Proof.
  assert (∀ x : value, x ∈ strings ["q"] →
            ¬ occurs x (strings ["id"; "cname"; "v"])) as Hq.
  { intros x Hx. apply list_elem_of_singleton in Hx as ->.
    apply absent_inArray. reflexivity. }
  split_and!.
  - pose proof (key_inference_failure unmatchedRows) as [Hboth _].
    destruct (Hboth eq_refl eq_refl) as (Hthrow & _).
    apply Hthrow. left. split; [exact Hq|discriminate].
  - pose proof (key_inference_failure unmatchedSample) as [Hboth _].
    destruct (Hboth eq_refl eq_refl) as (_ & Hempty & _ & Hready & _).
    destruct (proj2 (Hempty Hq eq_refl)) as [h' Hread].
    + intros e He. by apply elem_of_nil in He.
    + exists h'. split; [exact Hread | exact (Hready h' Hread)].
  - pose proof (key_inference_failure unmatchedAlone) as [_ Halone].
    destruct (Halone eq_refl) as [Hthrow _].
    + left. split; [reflexivity|].
      intros x Hx. apply list_elem_of_singleton in Hx as ->.
      apply absent_inArray. reflexivity.
    + apply Hthrow. eexists. apply list_elem_of_singleton. reflexivity.
Defined.

(** C6 does not hold of the code: no field of the headers of the two
    (empty) annotation tables of [unmatchedSample] occurs in its cell
    header, and [read] completes with [cells.ready] set. *)
Lemma unmatched_keys_still_ready :
  (∀ x, x ∈ header (rows unmatchedSample) →
     ¬ occurs x (header (cells unmatchedSample))) ∧
  (∀ x, x ∈ header (cols unmatchedSample) →
     ¬ occurs x (header (cells unmatchedSample))) ∧
  ∃ h', read false unmatchedSample = Ok h' ∧ ready (cells h') = true.
Proof.
  split_and!.
  - intros x Hx. apply list_elem_of_singleton in Hx as ->.
    apply absent_inArray. reflexivity.
  - intros x Hx. apply list_elem_of_singleton in Hx as ->.
    apply absent_inArray. reflexivity.
  - eexists. split; [vm_compute; reflexivity|reflexivity].
Qed.

(** C7 does not hold of the code. The positions of the keys met first are
    not 0, 1, ... on an axis that has records: in [mixedSample] the row key
    [r1], met first, gets position 2. And a key met first may get no
    position at all: in [inheritedSample] the row key [constructor] of the
    first record is not in the hash, and brings no axis record. *)
Lemma discovery_positions_not_dense :
  (firstSeen (INum 1) [] (values (cells mixedSample)) !! 0
   = Some ("r1", strings ["c1"; "r1"; "5"]) ∧
   buildHashes mixedSample (INum 0) (INum 1) (INum 0) (INum 0)
   = Ok mixedHashes ∧
   rowHash mixedHashes !! "r1" = Some 2 ∧
   rowHash mixedHashes !! "r1" ≠ Some 0) ∧
  (firstSeen (INum 1) [] (values (cells inheritedSample)) !! 0
   = Some ("constructor", strings ["c1"; "constructor"; "5"]) ∧
   ∃ st, buildHashes inheritedSample (INum 0) (INum 1) (INum 0) (INum 0)
         = Ok st ∧
     rowHash st !! "constructor" = None ∧
     rowsValues st = [ERec [VStr "r2"]]).
Proof.
  split.
  - split_and!; [reflexivity|by vm_compute|by vm_compute|by vm_compute].
  - split; [reflexivity|]. eexists. split; [vm_compute; reflexivity|].
    split; by vm_compute.
Qed.

Lemma discovery_builds_indices_witness :
  ∃ st, buildHashes discoverySample (INum 0) (INum 1) (INum 0) (INum 0)
        = Ok st ∧
    rowsValues st = [ERec [VStr "r1"]; ERec [VStr "r2"]] ∧
    colsValues st = [ERec [VStr "c1"]; ERec [VStr "c2"]] ∧
    rowHash st !! "r2" = Some 1 ∧ colHash st !! "c2" = Some 1.
Proof.
  destruct (discovery_builds_indices discoverySample (INum 0) (INum 1)
              (INum 0) (INum 0))
    as (st & Hb & _ & Hrows & Hcols & Hrh & Hch & _).
  - reflexivity.
  - intros r Hr. vm_compute in Hr.
    repeat (apply elem_of_cons in Hr as [Hr|Hr];
            [try discriminate; injection Hr as ->; split; by eexists|]).
    by apply elem_of_nil in Hr.
  - intros r s Hr Hs. vm_compute in Hr.
    repeat (apply elem_of_cons in Hr as [Hr|Hr];
            [try discriminate; injection Hr as ->; vm_compute in Hs;
             injection Hs as <-; reflexivity|]).
    by apply elem_of_nil in Hr.
  - intros r s Hr Hs. vm_compute in Hr.
    repeat (apply elem_of_cons in Hr as [Hr|Hr];
            [try discriminate; injection Hr as ->; vm_compute in Hs;
             injection Hs as <-; reflexivity|]).
    by apply elem_of_nil in Hr.
  - exists st. split_and!; [done|done|done| |].
    + apply Hrh. exists 1, (strings ["c1"; "r2"; "6"]). by vm_compute.
    + apply Hch. exists 1, (strings ["c2"; "r1"; "7"]). by vm_compute.
Defined.

Lemma default_discovery_keys_witness :
  ∃ h', read false discoverySample = Ok h' ∧
    header (rows h') = [VStr "r"] ∧ header (cols h') = [VStr "c"].
Proof.
  eexists. split; [vm_compute; reflexivity|].
  destruct (default_discovery_keys discoverySample) as (_ & _ & Hread).
  destruct (Hread eq_refl eq_refl eq_refl eq_refl _ eq_refl)
    as (Hrows & Hcols & _).
  split; [exact Hrows | exact Hcols].
Defined.

(** C3 does not hold of the code: in the row table of [declaredSample] the
    key [a] is first met at position 0, the hash maps it to position 1, and
    the rows 0 and 1 have the same key. *)
Lemma declared_index_keeps_last :
  let r := inferRow declaredSample in
  let c := inferCol declaredSample r in
  ∃ st, buildHashes declaredSample (axisKey r) (valuesKey r) (axisKey c)
          (valuesKey c) = Ok st ∧
    keyString (axisKey r) <$> values (rows declaredSample) !! 0
      = Some (Some "a") ∧
    rowHash st !! "a" ≠ Some 0 ∧
    rowHash st !! "a" = Some 1 ∧
    rowKeyAt declaredSample (axisKey r) 0
      = rowKeyAt declaredSample (axisKey r) 1.
Proof.
  intros r c. eexists. split; [vm_compute; reflexivity|].
  split_and!; [reflexivity|by vm_compute|by vm_compute|reflexivity].
Qed.

Lemma declared_index_last_occurrence_witness :
  lastOccurrence (INum 0) (values (rows declaredSample)) "a" 1 ∧
  ∀ s p, rowHash mixedHashes !! s = Some p → 2 ≤ p.
Proof.
  split.
  - destruct (declared_index_last_occurrence declaredSample (INum 0) (INum 0)
                (INum 1) (INum 1) declaredHashes) as [Hdecl _].
    + vm_compute. reflexivity.
    + destruct (Hdecl eq_refl eq_refl) as (Hrows & _).
      apply Hrows; [discriminate|]. vm_compute. reflexivity.
  - destruct (declared_index_last_occurrence mixedSample (INum 0) (INum 1)
                (INum 0) (INum 0) mixedHashes) as [_ Halone].
    + vm_compute. reflexivity.
    + destruct (Halone eq_refl) as (_ & Hrows & _). exact Hrows.
Defined.

(** C8 does not hold of the code on the input it names: under the header
    [Row, col1, col2] the matrix has 3 columns and the key of column 0 is
    [Row]. *)
Lemma wide_format_labelled_header :
  ∃ h', readCdm wideLabelled = Ok h' ∧
    columnCount h' ≠ 2 ∧
    colKeyAt h' (INum 0) 0 ≠ Some (VStr "col1").
Proof. eexists. split; [reflexivity|]. by vm_compute. Qed.

Lemma wide_format_shape_witness :
  ∃ h', readCdm wideSample = Ok h' ∧ header (rows h') = [VStr "Row"] ∧
    header (cols h') = [VStr "Column"] ∧ header (cells h') = [VStr "Value"].
Proof.
  eexists. split; [reflexivity|].
  destruct (proj1 wide_format_shape wideSample _ eq_refl)
    as (Hr & Hc & Hv & _).
  split_and!; [exact Hr | exact Hc | exact Hv].
Defined.

(** C10 does not hold of the code: the second record of [wideRagged] has 2
    fields under a header of 3, and it is a row of the matrix with its value
    in place. *)
Lemma wide_format_short_record_kept :
  (∃ r, values (cells wideRagged) !! 1 = Some (ERec r) ∧
     length r ≠ length (header (cells wideRagged))) ∧
  ∃ h', readCdm wideRagged = Ok h' ∧ rowCount h' = 2 ∧
    rowKeyAt h' (INum 0) 1 = Some (VStr "r2") ∧
    valueAt h' 1 0 = Some (ERec [VStr "0.21"]).
Proof.
  split.
  - eexists. split; [reflexivity|]. by vm_compute.
  - eexists. split; [reflexivity|]. by vm_compute.
Qed.

Lemma wide_format_keeps_records_witness :
  ∃ h', readCdm wideRagged = Ok h' ∧
    values (rows h') = [ERec [VStr "r1"]; ERec [VStr "r2"]] ∧
    values (cells h') !! 5 = Some (ERec [VUndef]).
Proof.
  destruct (wide_format_keeps_records wideRagged
              [strings ["r1"; "0.11"; "0.12"]; strings ["r2"; "0.21"]]
              eq_refl) as (h' & Hread & Hrows & Hcc & _ & Hcells).
  exists h'. split_and!; [exact Hread|exact Hrows|].
  specialize (Hcells 1 (strings ["r2"; "0.21"]) 2 eq_refl).
  assert (columnCount h' = 3) as Hthree by (by rewrite Hcc).
  rewrite Hthree in Hcells. apply Hcells. lia.
Defined.

(** The discovery of both axes from annotation field lists: the listed
    fields leave the cell header, [r1] and [c2] meet at offset 1, and
    nothing was read for [r2], [c2]. *)
Example annotated_discovery :
  ∃ h', read false annotatedSample = Ok h' ∧
    header (rows h') = [VStr "r"] ∧ header (cols h') = [VStr "c"] ∧
    header (cells h') = [VUndef; VUndef; VStr "v"] ∧
    rowCount h' = 2 ∧ columnCount h' = 2 ∧
    valueAt h' 0 1 = Some (ERec (strings ["r1"; "c2"; "7"])) ∧
    valueAt h' 1 1 = Some ENull.
Proof. eexists. split; [vm_compute; reflexivity|]. by vm_compute. Qed.

(** With [orderedValues] the cell table is published as it was read. *)
Example ordered_values_untouched :
  ∃ h', read true unmatchedRows = Ok h' ∧
    values (cells h') = values (cells unmatchedRows) ∧
    ready (cells h') = true.
Proof. eexists. split; [reflexivity|]. by vm_compute. Qed.

(** * Beyond the claims: the line loop *)

Lemma replaceFirst_without c s : without c s → replaceFirst c s = s.
Proof.
  induction s as [|a t IH]; simpl; [done|]. intros [Hne Ht].
  rewrite decide_False by done. by rewrite IH.
Qed.

Lemma replaceFirst_app c l rest :
  without c l → replaceFirst c (l +:+ String c rest) = l +:+ rest.
Proof.
  induction l as [|a t IH]; simpl.
  - intros _. by rewrite decide_True.
  - intros [Hne Ht]. rewrite decide_False by done. by rewrite IH.
Qed.

Lemma split_without c s : without c s → split c s = [s].
Proof.
  induction s as [|a t IH]; simpl; [done|]. intros [Hne Ht].
  rewrite decide_False by done. by rewrite IH.
Qed.

Lemma split_app c l rest :
  without c l → split c (l +:+ String c rest) = l :: split c rest.
Proof.
  induction l as [|a t IH]; simpl.
  - intros _. by rewrite decide_True.
  - intros [Hne Ht]. rewrite decide_False by done. by rewrite IH.
Qed.

Lemma without_app c s1 s2 :
  without c s1 → without c s2 → without c (s1 +:+ s2).
Proof. induction s1 as [|a t IH]; simpl; [done|]. intros [? ?] ?. auto. Qed.

Lemma string_app_assoc (s1 s2 s3 : string) :
  (s1 +:+ s2) +:+ s3 = s1 +:+ (s2 +:+ s3).
Proof.
  induction s1 as [|a t IH]; [done|].
  change (String a ((t +:+ s2) +:+ s3) = String a (t +:+ s2 +:+ s3)).
  by f_equal.
Qed.

Lemma joinLines_cons l l' ls :
  joinLines (l :: l' :: ls) = l +:+ String LF (joinLines (l' :: ls)).
Proof. done. Qed.

Lemma joinCRLF_cons l l' ls :
  joinCRLF (l :: l' :: ls) = l +:+ String CR (String LF (joinCRLF (l' :: ls))).
Proof. done. Qed.

Lemma split_joinLines l ls :
  Forall (without LF) (l :: ls) → split LF (joinLines (l :: ls)) = l :: ls.
Proof.
  revert l. induction ls as [|l' ls IH]; intros l Hall.
  - apply split_without. by apply Forall_cons in Hall as [? _].
  - apply Forall_cons in Hall as [Hl Hls].
    rewrite joinLines_cons, split_app by done. by rewrite IH.
Qed.

Lemma without_joinLines c ls :
  c ≠ LF → Forall (without c) ls → without c (joinLines ls).
Proof.
  intros Hc. induction ls as [|l ls IH]; [done|]. intros Hall.
  apply Forall_cons in Hall as [Hl Hls]. destruct ls as [|l' ls]; [done|].
  rewrite joinLines_cons. apply without_app; [done|]. simpl. split; [|auto].
  congruence.
Qed.

Lemma split_keepCR l ls :
  Forall (without LF) (l :: ls) →
  split LF (joinCRLF (l :: ls)) = keepCR (l :: ls).
Proof.
  revert l. induction ls as [|l' ls IH]; intros l Hall.
  - apply split_without. by apply Forall_cons in Hall as [? _].
  - apply Forall_cons in Hall as [Hl Hls].
    rewrite joinCRLF_cons.
    replace (l +:+ String CR (String LF (joinCRLF (l' :: ls))))
      with ((l +:+ String CR EmptyString) +:+ String LF (joinCRLF (l' :: ls)))
      by (by rewrite string_app_assoc).
    rewrite split_app.
    + by rewrite IH.
    + apply without_app; [done|]. simpl. split; [|done]. by vm_compute.
Qed.

Lemma prefix_hash a l :
  String.prefix "#" (String a l) = bool_decide ("#"%char = a).
Proof.
  change (String.prefix "#" (String a l)) with
    (if Ascii.ascii_dec "#"%char a then String.prefix "" l else false).
  destruct (Ascii.ascii_dec "#" a) as [He|Hne].
  - rewrite bool_decide_eq_true_2 by done. by destruct l.
  - by rewrite bool_decide_eq_false_2.
Qed.

Section line_loop.
Variable splitCSV : string → string → list string.

Lemma eachLine_records sep n lines t :
  eachLine splitCSV sep (S n) lines t
  = Table (header t) (values t ++ recordsOf splitCSV sep lines) (ready t).
Proof.
  revert n t. induction lines as [|line rest IH]; intros n t.
  - unfold recordsOf. simpl. rewrite app_nil_r. by destruct t.
  - cbn [eachLine]. rewrite IH. unfold lineStep, recordsOf.
    cbn [List.filter]. destruct (isData line); [|done].
    cbn [Nat.eqb header values ready map]. by rewrite <- app_assoc.
Qed.

Lemma eachLine_first sep line rest t :
  eachLine splitCSV sep 0 (line :: rest) t
  = Table (if isData line then fieldsOfLine splitCSV sep line else header t)
      (values t ++ recordsOf splitCSV sep rest) (ready t).
Proof.
  cbn [eachLine]. rewrite eachLine_records. unfold lineStep.
  by destruct (isData line).
Qed.

(** X1. For a file without carriage returns, the loop takes the header
    from the very first line, and only when that line is neither empty nor
    a comment; every later line that is neither empty nor a comment adds
    one record after those already in the table, in the order of the
    file. *)
Theorem readLines_lines sep line lines t :
  Forall (without LF) (line :: lines) →
  Forall (without CR) (line :: lines) →
  readLines splitCSV sep (joinLines (line :: lines)) t
  = Table (if isData line then fieldsOfLine splitCSV sep line else header t)
      (values t ++ recordsOf splitCSV sep lines) (ready t).
Proof.
  intros Hlf Hcr. unfold readLines, linesOf.
  rewrite replaceFirst_without by (by apply without_joinLines).
  rewrite split_joinLines by done. apply eachLine_first.
Qed.

(** X2. Of the carriage returns of a file only the first is removed. When
    the lines of a file end in carriage return and line feed, the first line
    is read clean and every later line but the last keeps its carriage
    return: such a line is never empty, so that a blank line gives a
    record. *)
Theorem readLines_crlf sep line lines t :
  Forall (without LF) (line :: lines) →
  Forall (without CR) (line :: lines) →
  lines ≠ [] →
  readLines splitCSV sep (joinCRLF (line :: lines)) t
  = Table (if isData line then fieldsOfLine splitCSV sep line else header t)
      (values t ++ recordsOf splitCSV sep (keepCR lines)) (ready t) ∧
  ∀ l, isData (l +:+ String CR EmptyString) = negb (startsWith l "#").
Proof.
  intros Hlf Hcr Hne. split.
  - unfold readLines, linesOf. destruct lines as [|l' ls]; [done|].
    apply Forall_cons in Hlf as [Hlf0 Hlf]. apply Forall_cons in Hcr as [Hcr0 _].
    rewrite joinCRLF_cons, replaceFirst_app by done.
    rewrite split_app by done. rewrite split_keepCR by done.
    apply eachLine_first.
  - intros l. destruct l as [|a l]; [by vm_compute|].
    change (String a l +:+ String CR EmptyString)
      with (String a (l +:+ String CR EmptyString)).
    unfold isData, startsWith. by rewrite !prefix_hash.
Qed.
End line_loop.

(** * Beyond the claims: annotation field lists *)

Lemma aget_aset_Z ch a z :
  aget (aset_Z VHole ch a VUndef) (INum z)
  = if decide (z = a) then VUndef else aget ch (INum z).
Proof.
  unfold aset_Z, aget. destruct (z <? 0)%Z eqn:Hz.
  { by case_decide. }
  apply Z.ltb_ge in Hz. destruct (a <? 0)%Z eqn:Ha.
  { apply Z.ltb_lt in Ha. case_decide; [lia|done]. }
  apply Z.ltb_ge in Ha. unfold aset.
  destruct (decide (z = a)) as [->|Hne].
  - case_decide as Hin.
    + by rewrite list_lookup_insert_eq.
    + rewrite lookup_app_r by lia. rewrite lookup_app_r
        by (rewrite length_replicate; lia).
      rewrite length_replicate.
      by replace (Z.to_nat a - length ch - (Z.to_nat a - length ch)) with 0
        by lia.
  - assert (Z.to_nat a ≠ Z.to_nat z) as Hn by lia.
    case_decide as Hin.
    + by rewrite list_lookup_insert_ne.
    + destruct (decide (Z.to_nat z < length ch)) as [Hlt|Hge].
      * by rewrite lookup_app_l.
      * rewrite (lookup_ge_None_2 ch) by lia.
        rewrite lookup_app_r by lia.
        destruct (decide (Z.to_nat z - length ch < Z.to_nat a - length ch))
          as [Hhole|Hpast].
        -- rewrite lookup_app_l by (by rewrite length_replicate).
           by rewrite lookup_replicate_2.
        -- rewrite lookup_app_r by (rewrite length_replicate; lia).
           rewrite length_replicate.
           rewrite lookup_ge_None_2; [done|]. simpl. lia.
Qed.

Lemma relocate_spec ann ax ch :
  ∃ new,
    (relocate ann ax ch).1 = ax ++ new ∧
    length new = length ann ∧
    (∀ k a, ann !! k = Some a →
       new !! k = Some (if decide (a ∈ take k ann) then VUndef
                        else aget ch (INum a))) ∧
    (∀ z, aget (relocate ann ax ch).2 (INum z)
          = if decide (z ∈ ann) then VUndef else aget ch (INum z)).
Proof.
  revert ax ch. induction ann as [|a0 t IH]; intros ax ch; cbn [relocate].
  - exists []. rewrite app_nil_r. split_and!; [done|done|done|].
    intros z. case_decide as Hin; [by apply elem_of_nil in Hin | done].
  - destruct (IH (ax ++ [aget ch (INum a0)])
                (aset_Z VHole ch a0 VUndef)) as (new & Hax & Hlen & Hnew & Hch).
    exists (aget ch (INum a0) :: new). split_and!.
    + by rewrite Hax, <- app_assoc.
    + simpl. by rewrite Hlen.
    + intros [|k] a Hk.
      * injection Hk as ->. cbn [take lookup list_lookup].
        case_decide as Hin; [by apply elem_of_nil in Hin | done].
      * change ((a0 :: t) !! S k) with (t !! k) in Hk.
        change ((aget ch (INum a0) :: new) !! S k) with (new !! k).
        change (take (S k) (a0 :: t)) with (a0 :: take k t).
        rewrite (Hnew k a Hk), aget_aset_Z. f_equal.
        destruct (decide (a ∈ take k t)) as [Hin|Hnin].
        -- rewrite decide_True; [done|]. by right.
        -- destruct (decide (a = a0)) as [->|Hne].
           ++ rewrite decide_True; [done|]. by left.
           ++ rewrite decide_False; [done|]. by intros [?|?]%elem_of_cons.
    + intros z. rewrite Hch, aget_aset_Z.
      destruct (decide (z ∈ t)) as [Hin|Hnin].
      * rewrite decide_True; [done|]. by right.
      * destruct (decide (z = a0)) as [->|Hne].
        -- rewrite decide_True; [done|]. by left.
        -- rewrite decide_False; [done|]. by intros [?|?]%elem_of_cons.
Qed.

(** X3. With a list of annotation fields and no annotation table, the axis
    header has one name for each entry of the list, the name found in the
    cell header at that index, or [undefined] when the index is outside the
    header or was listed before; the key of the axis is the first entry of
    the list; and in the cell header every listed index reads [undefined]
    while every other index reads as before. The column list works on the
    cell header as the row list left it. *)
Theorem annotation_fields_relocated h :
  (∀ ann, data_rows (options h) = false →
     rows_annotations (options h) = Some ann →
     let r := inferRow h in
     axisKey r = INum 0 ∧ valuesKey r = firstOf ann ∧
     length (axisHeader r) = length ann ∧
     (∀ k a, ann !! k = Some a →
        axisHeader r !! k
        = Some (if decide (a ∈ take k ann) then VUndef
                else aget (header (cells h)) (INum a))) ∧
     (∀ z, aget (cellsHeader r) (INum z)
           = if decide (z ∈ ann) then VUndef
             else aget (header (cells h)) (INum z))) ∧
  (∀ ann r, data_cols (options h) = false →
     cols_annotations (options h) = Some ann →
     let c := inferCol h r in
     axisKey c = INum 0 ∧ valuesKey c = firstOf ann ∧
     length (axisHeader c) = length ann ∧
     (∀ k a, ann !! k = Some a →
        axisHeader c !! k
        = Some (if decide (a ∈ take k ann) then VUndef
                else aget (cellsHeader r) (INum a))) ∧
     (∀ z, aget (cellsHeader c) (INum z)
           = if decide (z ∈ ann) then VUndef
             else aget (cellsHeader r) (INum z))).
Proof.
  split.
  - intros ann Hd Ha r. subst r. unfold inferRow. rewrite Hd, Ha.
    destruct (relocate_spec ann [] (header (cells h)))
      as (new & Hax & Hlen & Hnew & Hch).
    destruct (relocate ann [] (header (cells h))) as [rh ch'].
    simpl in *. subst rh. by split_and!.
  - intros ann r Hd Ha c. subst c. unfold inferCol. rewrite Hd, Ha.
    destruct (relocate_spec ann [] (cellsHeader r))
      as (new & Hax & Hlen & Hnew & Hch).
    destruct (relocate ann [] (cellsHeader r)) as [rh ch'].
    simpl in *. subst rh. by split_and!.
Qed.

(** * Beyond the claims: when [read] completes *)

Lemma discover_is_Some vk fields r hash vals :
  is_Some (discover vk fields r hash vals) ↔ is_Some (toString (aget r vk)).
Proof.
  unfold discover. destruct (toString (aget r vk)) as [s|].
  - destruct (isUndefined hash s); split; eauto.
  - split; by intros [? ?].
Qed.

Lemma discover_prefix vk fields r hash vals hash' vals' :
  discover vk fields r hash vals = Some (hash', vals') →
  vals `prefix_of` vals'.
Proof.
  intros [->| ->]%discover_axis_record; [done|]. by apply prefix_app_r.
Qed.

Lemma discoverStep_prefix vrk vck rf cf st e st' :
  discoverStep vrk vck rf cf st e = Ok st' ∨
  discoverStep vrk vck rf cf st e = TypeError st' →
  rowsValues st `prefix_of` rowsValues st' ∧
  colsValues st `prefix_of` colsValues st'.
Proof.
  unfold discoverStep. destruct e as [| |r];
    try (intros [[= <-]|?]; done).
  destruct (discover vrk rf r _ _) as [[rh rv]|] eqn:Hr.
  - apply discover_prefix in Hr.
    destruct (discover vck cf r _ _) as [[ch cv]|] eqn:Hc.
    + apply discover_prefix in Hc. by intros [[= <-]|?].
    + by intros [?|[= <-]].
  - by intros [?|[= <-]].
Qed.

Lemma discoverAll_prefix vrk vck rf cf recs st st' :
  discoverAll vrk vck rf cf recs st = Ok st' ∨
  discoverAll vrk vck rf cf recs st = TypeError st' →
  rowsValues st `prefix_of` rowsValues st' ∧
  colsValues st `prefix_of` colsValues st'.
Proof.
  revert st. induction recs as [|e t IH]; intros st; simpl.
  - by intros [[= <-]|?].
  - destruct (discoverStep vrk vck rf cf st e) as [st1|st1] eqn:Hs.
    + intros Hall. apply IH in Hall as [Hr Hc].
      destruct (discoverStep_prefix vrk vck rf cf st e st1) as [Hr1 Hc1];
        [by left|].
      split; by etrans.
    + intros [?|[= <-]]; [done|].
      apply (discoverStep_prefix vrk vck rf cf st e st1). by right.
Qed.

Lemma discoverAll_Ok_iff vrk vck rf cf recs st :
  (∃ st', discoverAll vrk vck rf cf recs st = Ok st') ↔
  ∀ r, ERec r ∈ recs →
    is_Some (toString (aget r vrk)) ∧ is_Some (toString (aget r vck)).
Proof.
  revert st. induction recs as [|e t IH]; intros st.
  - split; [by intros _ r ?%elem_of_nil | by exists st].
  - cbn [discoverAll]. unfold discoverStep. destruct e as [| |r].
    + rewrite IH. split; intros H r Hr; [|apply H; by right].
      by apply elem_of_cons in Hr as [?|?]; [|apply H].
    + rewrite IH. split; intros H r Hr; [|apply H; by right].
      by apply elem_of_cons in Hr as [?|?]; [|apply H].
    + pose proof (discover_is_Some vrk rf r (rowHash st) (rowsValues st))
        as HR.
      pose proof (discover_is_Some vck cf r (colHash st) (colsValues st))
        as HC.
      destruct (discover vrk rf r _ _) as [[rh rv]|].
      * destruct (discover vck cf r _ _) as [[ch cv]|].
        -- rewrite IH. split.
           ++ intros H r' [[= ->]|Hr']%elem_of_cons; [|by apply H].
              split; [apply HR | apply HC]; eauto.
           ++ intros H r' Hr'. apply H. by right.
        -- split; [by intros [? ?]|]. intros H.
           destruct (H r) as [_ Hc]; [by left|]. apply HC in Hc.
           by destruct Hc.
      * split; [by intros [? ?]|]. intros H.
        destruct (H r) as [Hr _]; [by left|]. apply HR in Hr. by destruct Hr.
Qed.

(** X4. As soon as one of the two annotation tables is missing, [read]
    completes exactly when every record of the cell table has a string at
    the field of the row key and at the field of the column key: one record
    too short for a key ends the callback in a [TypeError]. *)
Theorem discovery_completes_iff h :
  let r := inferRow h in
  let c := inferCol h r in
  data_rows (options h) && data_cols (options h) = false →
  (∃ h', read false h = Ok h') ↔
  ∀ rec, ERec rec ∈ values (cells h) →
    is_Some (toString (aget rec (valuesKey r))) ∧
    is_Some (toString (aget rec (valuesKey c))).
Proof.
  intros r c Hmode. rewrite read_Ok_iff. fold r c.
  unfold buildHashes. rewrite Hmode. apply discoverAll_Ok_iff.
Qed.

(** X5. With both annotation tables declared, [read] completes exactly when
    every record of the row table has a string at the row key and every
    record of the column table has one at the column key, whatever the cell
    table holds. Completed, it leaves the two annotation tables and the cell
    header as they were; aborted, it leaves the whole heatmap as it was. *)
Theorem declared_completes_iff h :
  let rowKey := axisKey (inferRow h) in
  let colKey := axisKey (inferCol h (inferRow h)) in
  data_rows (options h) = true →
  data_cols (options h) = true →
  ((∃ h', read false h = Ok h') ↔
   (∀ e, e ∈ values (rows h) → is_Some (keyString rowKey e)) ∧
   (∀ e, e ∈ values (cols h) → is_Some (keyString colKey e))) ∧
  (∀ h', read false h = Ok h' →
     rows h' = rows h ∧ cols h' = cols h ∧
     header (cells h') = header (cells h)) ∧
  (∀ h', read false h = TypeError h' → h' = h).
Proof.
  intros rowKey colKey Hr Hc.
  destruct (declared_headers h Hr Hc) as (Hrh & Hch & Hcells).
  split_and!.
  - rewrite read_Ok_iff. fold rowKey colKey.
    unfold buildHashes. rewrite Hr, Hc. simpl.
    rewrite <- (hashAxis_Ok_iff rowKey (values (rows h)) 0 ∅).
    rewrite <- (hashAxis_Ok_iff colKey (values (cols h)) 0 ∅).
    destruct (hashAxis rowKey _ 0 ∅) as [rh|rh];
      destruct (hashAxis colKey _ 0 ∅) as [ch|ch].
    + split; eauto.
    + split; [by intros [? ?] | by intros [_ [? ?]]].
    + split; [by intros [? ?] | by intros [[? ?] _]].
    + split; [by intros [? ?] | by intros [[? ?] _]].
  - intros h' (st & Hb & ->)%read_Ok_inv.
    unfold buildHashes in Hb. rewrite Hr, Hc in Hb. simpl in Hb.
    destruct (hashAxis _ (values (rows h)) 0 ∅); [|done].
    destruct (hashAxis _ (values (cols h)) 0 ∅); [|done].
    injection Hb as <-. unfold withAxes. simpl.
    by rewrite Hrh, Hch, Hcells, !table_eta.
  - intros h'. unfold read.
    destruct (buildHashes h _ _ _ _) as [st|st] eqn:Hb; [done|].
    intros [= <-]. unfold buildHashes in Hb. rewrite Hr, Hc in Hb.
    simpl in Hb.
    assert (st = Hashes ∅ (values (rows h)) ∅ (values (cols h))) as ->.
    { destruct (hashAxis _ (values (rows h)) 0 ∅); [|by injection Hb].
      destruct (hashAxis _ (values (cols h)) 0 ∅); [done|by injection Hb]. }
    unfold withAxes. simpl. rewrite Hrh, Hch, Hcells. apply heatmap_eta.
Qed.

Lemma buildHashes_prefix h rowKey vrk colKey vck st :
  buildHashes h rowKey vrk colKey vck = Ok st ∨
  buildHashes h rowKey vrk colKey vck = TypeError st →
  values (rows h) `prefix_of` rowsValues st ∧
  values (cols h) `prefix_of` colsValues st.
Proof.
  unfold buildHashes.
  destruct (data_rows (options h) && data_cols (options h)).
  - destruct (hashAxis rowKey _ 0 ∅); [|by intros [?|[= <-]]].
    destruct (hashAxis colKey _ 0 ∅); [|by intros [?|[= <-]]].
    by intros [[= <-]|?].
  - intros H. by apply discoverAll_prefix in H.
Qed.

(** X6. Whatever its outcome, [read] keeps the records the two axes had, in
    their places, in front of those it adds, and leaves the ready flags of
    the axes and the options alone. Completed, it sets [cells.ready];
    aborted, it leaves [cells.ready] and the records of the cell table as
    they were. *)
Theorem read_preserves h h' :
  read false h = Ok h' ∨ read false h = TypeError h' →
  values (rows h) `prefix_of` values (rows h') ∧
  values (cols h) `prefix_of` values (cols h') ∧
  ready (rows h') = ready (rows h) ∧
  ready (cols h') = ready (cols h) ∧
  options h' = options h ∧
  (read false h = Ok h' → ready (cells h') = true) ∧
  (read false h = TypeError h' →
   ready (cells h') = ready (cells h) ∧
   values (cells h') = values (cells h)).
Proof.
  unfold read.
  destruct (buildHashes h _ _ _ _) as [st|st] eqn:Hb.
  - intros [[= <-]|?]; [|done].
    destruct (buildHashes_prefix _ _ _ _ _ _ (or_introl Hb)) as [Hr Hc].
    by split_and!.
  - intros [?|[= <-]]; [done|].
    destruct (buildHashes_prefix _ _ _ _ _ _ (or_intror Hb)) as [Hr Hc].
    by split_and!.
Qed.

(** * Beyond the claims: the matrix and its axes *)

Lemma indexed_key vk seen recs k s r :
  indexed vk seen recs !! k = Some (s, r) →
  toString (aget r vk) = Some s ∧ ERec r ∈ recs.
Proof.
  revert seen k. induction recs as [|e t IH]; intros seen k; simpl; [done|].
  destruct e as [| |r0].
  - intros [? ?]%IH. split; [done | by right].
  - intros [? ?]%IH. split; [done | by right].
  - destruct (toString (aget r0 vk)) as [s0|] eqn:Hs0; [|done].
    case_decide.
    + intros [? ?]%IH. split; [done | by right].
    + destruct (inherited s0).
      * intros [? ?]%IH. split; [done | by right].
      * destruct k as [|k]; simpl.
        -- intros [= <- <-]. split; [done | by left].
        -- intros [? ?]%IH. split; [done | by right].
Qed.

Lemma discoverAll_Ok_spec vrk vck rf cf recs rows0 cols0 st :
  discoverAll vrk vck rf cf recs (Hashes ∅ rows0 ∅ cols0) = Ok st →
  (∀ r, ERec r ∈ recs →
     is_Some (toString (aget r vrk)) ∧ is_Some (toString (aget r vck))) ∧
  rowsValues st = rows0 ++ map (axisRecord rf) (indexed vrk [] recs) ∧
  colsValues st = cols0 ++ map (axisRecord cf) (indexed vck [] recs) ∧
  numbered ∅ (rowHash st) (length rows0) (indexed vrk [] recs) ∧
  numbered ∅ (colHash st) (length cols0) (indexed vck [] recs).
Proof.
  intros Hall.
  assert (∀ r, ERec r ∈ recs →
            is_Some (toString (aget r vrk)) ∧
            is_Some (toString (aget r vck))) as Hkeys.
  { apply (discoverAll_Ok_iff vrk vck rf cf recs (Hashes ∅ rows0 ∅ cols0)).
    eauto. }
  destruct (discoverAll_indexed vrk vck rf cf recs
              (Hashes ∅ rows0 ∅ cols0) [] [] Hkeys
              keys_of_empty keys_of_empty)
    as (st' & Hall' & Hrv & Hcv & HnR & HnC).
  assert (st' = st) as -> by congruence. done.
Qed.

Section discovered_axis.
Variables (vk : idx) (fields : list idx) (recs : list entry).
Variables (hash : gmap string nat) (vals0 : list entry).
Hypothesis Hnum :
  numbered ∅ hash (length vals0) (indexed vk [] recs).
Hypothesis Hfields :
  vk = IUndef ∨ ∀ r, aget (map (aget r) fields) (INum 0) = aget r vk.

Lemma numbered_lookup s p :
  hash !! s = Some p ↔
  ∃ k r, indexed vk [] recs !! k = Some (s, r) ∧ p = length vals0 + k.
Proof.
  rewrite (Hnum s p), lookup_empty. split; [by intros [?|?] | by right].
Qed.

Lemma numbered_inj s1 s2 p :
  hash !! s1 = Some p → hash !! s2 = Some p → s1 = s2.
Proof.
  intros (k1 & r1 & Hk1 & ->)%numbered_lookup
         (k2 & r2 & Hk2 & Heq)%numbered_lookup.
  assert (k1 = k2) as -> by lia. congruence.
Qed.

Lemma discovered_keyAt k s r :
  indexed vk [] recs !! k = Some (s, r) →
  keyAt (vals0 ++ map (axisRecord fields) (indexed vk [] recs)) (INum 0)
    (length vals0 + k) = Some (VStr s).
Proof.
  intros Hk. unfold keyAt. rewrite lookup_app_r by lia.
  replace (length vals0 + k - length vals0) with k by lia.
  rewrite list_lookup_fmap, Hk. cbn -[aget].
  apply indexed_key in Hk as [Hs _].
  destruct Hfields as [->|Hf]; [done|]. rewrite Hf.
  by destruct (aget r vk); simplify_eq/=.
Qed.

(** The hash and the axis records it numbers are inverse to each other. *)
Lemma hash_axis_inverse s p :
  hash !! s = Some p ↔
  length vals0 ≤ p ∧
  keyAt (vals0 ++ map (axisRecord fields) (indexed vk [] recs)) (INum 0) p
  = Some (VStr s).
Proof.
  split.
  - intros (k & r & Hk & ->)%numbered_lookup. split; [lia|].
    by eapply discovered_keyAt.
  - intros [Hle Hkey]. apply numbered_lookup.
    destruct (indexed vk [] recs !! (p - length vals0))
      as [[s' r']|] eqn:Hk.
    + pose proof (discovered_keyAt _ _ _ Hk) as Hkey'.
      replace (length vals0 + (p - length vals0)) with p in Hkey' by lia.
      assert (s' = s) as -> by congruence.
      exists (p - length vals0), r'. split; [done|lia].
    + exfalso. unfold keyAt in Hkey. rewrite lookup_app_r in Hkey by lia.
      by rewrite list_lookup_fmap, Hk in Hkey.
Qed.
End discovered_axis.

Lemma indexed_undefined seen recs : indexed IUndef seen recs = [].
Proof. induction recs as [|[| |r] t IH]; simpl; done. Qed.

Lemma norm_aget r k : norm (aget r k) = aget r k.
Proof.
  unfold aget. destruct k as [|z]; [done|].
  destruct (z <? 0)%Z; [done|]. by destruct (r !! Z.to_nat z) as [[]|].
Qed.

Lemma aget_first v l : aget (v :: l) (INum 0) = norm v.
Proof. done. Qed.

(** The first field of a discovered axis record is the key of the axis. *)
Lemma fieldsOf_key ann vk :
  vk = match ann with Some l => firstOf l | None => vk end →
  vk = IUndef ∨
  ∀ r, aget (map (aget r) (fieldsOf ann vk)) (INum 0) = aget r vk.
Proof.
  destruct ann as [[|a l]|]; cbn [fieldsOf firstOf map]; intros Hvk.
  - by left.
  - right. intros r. by rewrite Hvk, aget_first, norm_aget.
  - right. intros r. by rewrite aget_first, norm_aget.
Qed.

Lemma position_inv rh ch vrk vck cl r i j :
  bounded ch cl → j < cl →
  position rh ch vrk vck cl r = Some (i * cl + j) →
  rh !! propKey (aget r vrk) = Some i ∧ ch !! propKey (aget r vck) = Some j.
Proof.
  intros Hb Hj. unfold position.
  destruct (rh !! _) as [i'|]; [|done].
  destruct (ch !! _) as [j'|] eqn:Hj'; [|done].
  intros [= Heq]. apply Hb in Hj'.
  assert (i' = i) as -> by nia. assert (j' = j) as -> by nia. done.
Qed.

Lemma position_intro rh ch vrk vck cl r i j :
  rh !! propKey (aget r vrk) = Some i → ch !! propKey (aget r vck) = Some j →
  position rh ch vrk vck cl r = Some (i * cl + j).
Proof. unfold position. by intros -> ->. Qed.

(** What [read] leaves at row [i], column [j]. *)
Lemma valueAt_read h st i j :
  let r := inferRow h in
  let c := inferCol h r in
  let at_ := pick (rowHash st) (colHash st) (valuesKey r) (valuesKey c)
               (length (colsValues st)) (i * length (colsValues st) + j) in
  buildHashes h (axisKey r) (valuesKey r) (axisKey c) (valuesKey c) = Ok st →
  i < length (rowsValues st) → j < length (colsValues st) →
  valueAt
    (withAxes h r c st
       (Table (cellsHeader c)
          (denseValues (valuesKey r) (valuesKey c) st (values (cells h)))
          true)) i j
  = foldl at_ (Some ENull) (values (cells h)).
Proof.
  intros r c at_ Hb Hi Hj.
  pose proof (buildHashes_bounded _ _ _ _ _ _ Hb) as Hbd.
  unfold valueAt, columnCount. simpl.
  rewrite denseValues_lookup by done.
  by rewrite lookup_replicate_2 by nia.
Qed.

Lemma hashAxis_keyAt key vals hash s p :
  hashAxis key vals 0 ∅ = Ok hash → hash !! s = Some p →
  keyAt vals key p = Some (VStr s).
Proof.
  intros Hh Hs. apply (hashAxis_index _ _ _ Hh) in Hs
    as (_ & (e & Hk & He) & _).
  by eapply keyAt_keyString.
Qed.

Lemma propKey_string v s : toString v = Some s → v = VStr s ∧ propKey v = s.
Proof. by destruct v; intros [= ->]. Qed.

Lemma inferRow_discovery h :
  data_rows (options h) = false →
  axisKey (inferRow h) = INum 0 ∧
  (valuesKey (inferRow h) = IUndef ∨
   ∀ r, aget (map (aget r)
                (fieldsOf (rows_annotations (options h))
                   (valuesKey (inferRow h)))) (INum 0)
        = aget r (valuesKey (inferRow h))).
Proof.
  intros Hd. unfold inferRow. rewrite Hd.
  destruct (rows_annotations (options h)) as [ann|] eqn:Ha.
  - destruct (relocate ann [] _) as [rh ch]. simpl. split; [done|].
    by apply (fieldsOf_key (Some ann)).
  - simpl. split; [done|]. by apply (fieldsOf_key None).
Qed.

Lemma inferCol_discovery h r :
  data_cols (options h) = false →
  axisKey (inferCol h r) = INum 0 ∧
  (valuesKey (inferCol h r) = IUndef ∨
   ∀ rec, aget (map (aget rec)
                  (fieldsOf (cols_annotations (options h))
                     (valuesKey (inferCol h r)))) (INum 0)
          = aget rec (valuesKey (inferCol h r))).
Proof.
  intros Hd. unfold inferCol. rewrite Hd.
  destruct (cols_annotations (options h)) as [ann|] eqn:Ha.
  - destruct (relocate ann [] _) as [rh ch]. simpl. split; [done|].
    by apply (fieldsOf_key (Some ann)).
  - simpl. split; [done|]. by apply (fieldsOf_key None).
Qed.

Section assembled.
Variables (h : heatmap) (st : hashes).

Abbreviation r_ := (inferRow h).
Abbreviation c_ := (inferCol h (inferRow h)).
Abbreviation assembled_ :=
  (withAxes h r_ c_ st
     (Table (cellsHeader c_)
        (denseValues (valuesKey r_) (valuesKey c_) st (values (cells h)))
        true)).

Hypothesis Hb :
  buildHashes h (axisKey r_) (valuesKey r_) (axisKey c_) (valuesKey c_)
  = Ok st.

(** A record found in the matrix resolves to the place it is found at. *)
Lemma stored_record i j rec :
  j < length (colsValues st) →
  valueAt assembled_ i j = Some (ERec rec) →
  i < length (rowsValues st) ∧
  ERec rec ∈ values (cells h) ∧
  rowHash st !! propKey (aget rec (valuesKey r_)) = Some i ∧
  colHash st !! propKey (aget rec (valuesKey c_)) = Some j.
Proof.
  intros Hj Hv.
  pose proof (buildHashes_bounded _ _ _ _ _ _ Hb) as [Hbr Hbc].
  assert (i < length (rowsValues st)) as Hi.
  { unfold valueAt, columnCount in Hv. simpl in Hv.
    apply lookup_lt_Some in Hv. rewrite denseValues_length in Hv by done.
    nia. }
  rewrite (valueAt_read h st i j Hb Hi Hj) in Hv.
  edestruct pick_cases as [Heq|(rec' & Hin & Hp & Heq)];
    rewrite Heq in Hv; [done|].
  injection Hv as <-. split; [done|]. split; [done|].
  by eapply position_inv.
Qed.

(** A record that resolves to a place puts a record there, itself or a later
    one that resolves to the same place. *)
Lemma resolving_record n rec i j :
  values (cells h) !! n = Some (ERec rec) →
  rowHash st !! propKey (aget rec (valuesKey r_)) = Some i →
  colHash st !! propKey (aget rec (valuesKey c_)) = Some j →
  ∃ rec', valueAt assembled_ i j = Some (ERec rec') ∧
    ERec rec' ∈ values (cells h) ∧
    rowHash st !! propKey (aget rec' (valuesKey r_)) = Some i ∧
    colHash st !! propKey (aget rec' (valuesKey c_)) = Some j.
Proof.
  intros Hn Hi Hj.
  pose proof (buildHashes_bounded _ _ _ _ _ _ Hb) as [Hbr Hbc].
  pose proof (Hbr _ _ Hi) as Hil. pose proof (Hbc _ _ Hj) as Hjl.
  pose proof (position_intro _ _ _ _ (length (colsValues st)) _ _ _ Hi Hj)
    as Hp.
  destruct (last_resolving _ _ _ _ _ _ _ _ _ Hn Hp)
    as (k & rec' & _ & Hk & Hp' & Hlast).
  destruct (position_inv _ _ _ _ _ _ _ _ Hbc Hjl Hp') as [Hi' Hj'].
  exists rec'. rewrite (valueAt_read h st i j Hb Hil Hjl).
  split_and!; [|by apply list_elem_of_lookup; eauto|done|done].
  rewrite <- (take_drop_middle _ _ _ Hk). apply pick_last; [done|].
  intros r' [m Hm]%list_elem_of_lookup. rewrite lookup_drop in Hm.
  apply (Hlast (S k + m)); [lia|done].
Qed.
End assembled.

Lemma buildHashes_discovery h rowKey vrk colKey vck st :
  data_rows (options h) && data_cols (options h) = false →
  buildHashes h rowKey vrk colKey vck = Ok st →
  let rf := fieldsOf (rows_annotations (options h)) vrk in
  let cf := fieldsOf (cols_annotations (options h)) vck in
  (∀ r, ERec r ∈ values (cells h) →
     is_Some (toString (aget r vrk)) ∧ is_Some (toString (aget r vck))) ∧
  rowsValues st
  = values (rows h) ++ map (axisRecord rf) (indexed vrk [] (values (cells h))) ∧
  colsValues st
  = values (cols h) ++ map (axisRecord cf) (indexed vck [] (values (cells h))) ∧
  numbered ∅ (rowHash st) (length (values (rows h)))
    (indexed vrk [] (values (cells h))) ∧
  numbered ∅ (colHash st) (length (values (cols h)))
    (indexed vck [] (values (cells h))).
Proof.
  intros Hmode. unfold buildHashes. rewrite Hmode.
  apply discoverAll_Ok_spec.
Qed.

(** X7. When both annotation tables are declared, or neither is, every
    record [read] leaves in the matrix is a record of the cell table and
    sits in the row and the column it names: its row key is the key of the
    axis record of its row, its column key that of its column. *)
Theorem stored_cell_keys h h' i j rec :
  let r := inferRow h in
  let c := inferCol h r in
  data_rows (options h) = data_cols (options h) →
  read false h = Ok h' →
  j < columnCount h' →
  valueAt h' i j = Some (ERec rec) →
  ERec rec ∈ values (cells h) ∧
  rowKeyAt h' (axisKey r) i = Some (VStr (propKey (aget rec (valuesKey r)))) ∧
  colKeyAt h' (axisKey c) j = Some (VStr (propKey (aget rec (valuesKey c)))).
Proof.
  intros r c. subst r c. intros Hmode (st & Hb & ->)%read_Ok_inv Hj Hv.
  destruct (stored_record h st Hb i j rec Hj Hv) as (_ & Hin & Hi & Hjh).
  split; [done|].
  unfold rowKeyAt, colKeyAt. cbn [withAxes rows cols values].
  destruct (data_rows (options h)) eqn:Hr.
  - symmetry in Hmode. unfold buildHashes in Hb. rewrite Hr, Hmode in Hb.
    simpl in Hb.
    destruct (hashAxis _ (values (rows h)) 0 ∅) as [rh|] eqn:Hrh; [|done].
    destruct (hashAxis _ (values (cols h)) 0 ∅) as [ch|] eqn:Hch; [|done].
    injection Hb as <-. simpl in *.
    split; by eapply hashAxis_keyAt.
  - symmetry in Hmode.
    assert (data_rows (options h) && data_cols (options h) = false) as Hm
      by (by rewrite Hr).
    destruct (buildHashes_discovery h _ _ _ _ st Hm Hb)
      as (_ & -> & -> & HnR & HnC).
    destruct (inferRow_discovery h Hr) as [HkR HfR].
    destruct (inferCol_discovery h (inferRow h) Hmode) as [HkC HfC].
    rewrite HkR, HkC. split.
    + by apply (hash_axis_inverse _ _ _ _ _ HnR HfR).
    + by apply (hash_axis_inverse _ _ _ _ _ HnC HfC).
Qed.

(** X8. As soon as one of the two annotation tables is missing, a pair of
    keys of the cell table is lost only under a name the hashes inherit
    from [Object.prototype]: for every record of the cell table whose row
    key and column key are no such names the matrix holds, at some row and
    column, a record with the same row key and the same column key (the
    record itself, or a later one that took its place). *)
Theorem discovery_keeps_every_pair h h' rec :
  let r := inferRow h in
  let c := inferCol h r in
  data_rows (options h) && data_cols (options h) = false →
  read false h = Ok h' →
  ERec rec ∈ values (cells h) →
  inherited (propKey (aget rec (valuesKey r))) = false →
  inherited (propKey (aget rec (valuesKey c))) = false →
  ∃ i j rec', i < rowCount h' ∧ j < columnCount h' ∧
    valueAt h' i j = Some (ERec rec') ∧
    ERec rec' ∈ values (cells h) ∧
    aget rec' (valuesKey r) = aget rec (valuesKey r) ∧
    aget rec' (valuesKey c) = aget rec (valuesKey c).
Proof.
  intros r c. subst r c.
  intros Hmode (st & Hb & ->)%read_Ok_inv Hin HplainR HplainC.
  destruct (buildHashes_discovery h _ _ _ _ st Hmode Hb)
    as (Hkeys & Hrv & Hcv & HnR & HnC).
  pose proof (buildHashes_bounded _ _ _ _ _ _ Hb) as [Hbr Hbc].
  destruct (Hkeys rec Hin) as [[sr Hsr] [sc Hsc]].
  apply propKey_string in Hsr as [Hvr Hpr].
  apply propKey_string in Hsc as [Hvc Hpc].
  rewrite Hpr in HplainR. rewrite Hpc in HplainC.
  assert (∀ vk n hash s,
            numbered ∅ hash n (indexed vk [] (values (cells h))) →
            (∀ r0, ERec r0 ∈ values (cells h) →
               is_Some (toString (aget r0 vk))) →
            aget rec vk = VStr s → inherited s = false →
            is_Some (hash !! s)) as Hfound.
  { intros vk n hash s Hn Hstr Hs Hplain.
    destruct (indexed_complete vk [] _ rec s Hstr Hin)
      as [?%elem_of_nil|Hs']; [by rewrite Hs|done|done|].
    apply list_elem_of_fmap in Hs'
      as ([s' r'] & -> & [k Hk]%list_elem_of_lookup).
    exists (n + k). apply (Hn s' (n + k)). right. by exists k, r'. }
  destruct (Hfound _ _ _ sr HnR) as [i Hi];
    [by intros r0 [? _]%Hkeys|done|done|].
  destruct (Hfound _ _ _ sc HnC) as [j Hj];
    [by intros r0 [_ ?]%Hkeys|done|done|].
  apply list_elem_of_lookup in Hin as [n Hn].
  destruct (resolving_record h st Hb n rec i j Hn)
    as (rec' & Hv & Hin' & Hi' & Hj'); [by rewrite Hpr|by rewrite Hpc|].
  exists i, j, rec'. unfold rowCount, columnCount. cbn [withAxes rows cols values].
  split_and!; [by eapply Hbr|by eapply Hbc|done|done| |].
  - destruct (Hkeys rec' Hin') as [[sr' Hsr'] _].
    apply propKey_string in Hsr' as [Hvr' Hpr'].
    rewrite Hpr' in Hi'.
    assert (sr' = sr) as ->; [|congruence].
    destruct (HnR sr' i) as [[?|(k1 & r1 & Hk1 & Hp1)] _]; [done|done|].
    destruct (HnR sr i) as [[?|(k2 & r2 & Hk2 & Hp2)] _]; [done|done|].
    assert (k1 = k2) as -> by lia. congruence.
  - destruct (Hkeys rec' Hin') as [_ [sc' Hsc']].
    apply propKey_string in Hsc' as [Hvc' Hpc'].
    rewrite Hpc' in Hj'.
    assert (sc' = sc) as ->; [|congruence].
    destruct (HnC sc' j) as [[?|(k1 & r1 & Hk1 & Hp1)] _]; [done|done|].
    destruct (HnC sc j) as [[?|(k2 & r2 & Hk2 & Hp2)] _]; [done|done|].
    assert (k1 = k2) as -> by lia. congruence.
Qed.

(** X9. With no annotation table at all, a cell of a discovered row and a
    discovered column is [null] exactly when no record of the cell table has
    the key of that row together with the key of that column. *)
Theorem missing_iff_absent h h' i j :
  let r := inferRow h in
  let c := inferCol h r in
  data_rows (options h) = false →
  data_cols (options h) = false →
  read false h = Ok h' →
  rowCount h ≤ i → i < rowCount h' →
  columnCount h ≤ j → j < columnCount h' →
  valueAt h' i j = Some ENull ↔
  ∀ rec, ERec rec ∈ values (cells h) →
    ¬ (rowKeyAt h' (INum 0) i = Some (aget rec (valuesKey r)) ∧
       colKeyAt h' (INum 0) j = Some (aget rec (valuesKey c))).
Proof.
  intros r c. subst r c. intros Hr Hc (st & Hb & ->)%read_Ok_inv.
  unfold rowCount, columnCount, rowKeyAt, colKeyAt.
  cbn [withAxes rows cols values]. intros Hi0 Hi Hj0 Hj.
  assert (data_rows (options h) && data_cols (options h) = false) as Hm
    by (by rewrite Hr).
  destruct (buildHashes_discovery h _ _ _ _ st Hm Hb)
    as (Hkeys & Hrv & Hcv & HnR & HnC).
  destruct (inferRow_discovery h Hr) as [_ HfR].
  destruct (inferCol_discovery h (inferRow h) Hc) as [_ HfC].
  pose proof (hash_axis_inverse _ _ _ _ _ HnR HfR) as HinvR.
  pose proof (hash_axis_inverse _ _ _ _ _ HnC HfC) as HinvC.
  rewrite <- Hrv in HinvR. rewrite <- Hcv in HinvC.
  split.
  - intros Hnull rec Hin [Hkr Hkc].
    destruct (Hkeys rec Hin) as [[sr Hsr] [sc Hsc]].
    apply propKey_string in Hsr as [Hvr Hpr].
    apply propKey_string in Hsc as [Hvc Hpc].
    rewrite Hvr in Hkr. rewrite Hvc in Hkc.
    apply list_elem_of_lookup in Hin as [n Hn].
    destruct (resolving_record h st Hb n rec i j Hn) as (rec' & Hv & _).
    + rewrite Hpr. by apply HinvR.
    + rewrite Hpc. by apply HinvC.
    + congruence.
  - intros Habsent.
    destruct (valueAt _ i j) as [[| |rec]|] eqn:Hv.
    + exfalso. rewrite (valueAt_read h st i j Hb Hi Hj) in Hv.
      edestruct pick_cases as [Heq|(rec' & _ & _ & Heq)];
        rewrite Heq in Hv; done.
    + done.
    + exfalso.
      destruct (stored_record h st Hb i j rec Hj Hv) as (_ & Hin & Hih & Hjh).
      destruct (Hkeys rec Hin) as [[sr Hsr] [sc Hsc]].
      apply propKey_string in Hsr as [Hvr Hpr].
      apply propKey_string in Hsc as [Hvc Hpc].
      apply (Habsent rec Hin). rewrite Hvr, Hvc. rewrite Hpr in Hih.
      rewrite Hpc in Hjh. split.
      * by apply HinvR.
      * by apply HinvC.
    + exfalso. rewrite (valueAt_read h st i j Hb Hi Hj) in Hv.
      edestruct pick_cases as [Heq|(rec' & _ & _ & Heq)];
        rewrite Heq in Hv; done.
Qed.

(** X10. As soon as one of the two annotation tables is missing, the axis
    records that were there before [read] receive nothing: the discovered
    keys are numbered after them, so that every cell of such a row, and
    every cell of such a column, is [null], also when the record was
    declared with the very key a cell record names. *)
Theorem earlier_axis_records_stay_empty h h' i j :
  data_rows (options h) && data_cols (options h) = false →
  read false h = Ok h' →
  i < rowCount h' → j < columnCount h' →
  i < rowCount h ∨ j < columnCount h →
  valueAt h' i j = Some ENull.
Proof.
  intros Hmode (st & Hb & ->)%read_Ok_inv.
  unfold rowCount, columnCount. cbn [withAxes rows cols values].
  intros Hi Hj Hold.
  destruct (buildHashes_discovery h _ _ _ _ st Hmode Hb)
    as (_ & _ & _ & HnR & HnC).
  destruct (valueAt _ i j) as [[| |rec]|] eqn:Hv.
  - exfalso. rewrite (valueAt_read h st i j Hb Hi Hj) in Hv.
    edestruct pick_cases as [Heq|(rec' & _ & _ & Heq)];
      rewrite Heq in Hv; done.
  - done.
  - exfalso.
    destruct (stored_record h st Hb i j rec Hj Hv) as (_ & _ & Hih & Hjh).
    apply HnR in Hih as [?|(k1 & r1 & _ & Hp1)]; [done|].
    apply HnC in Hjh as [?|(k2 & r2 & _ & Hp2)]; [done|].
    lia.
  - exfalso. rewrite (valueAt_read h st i j Hb Hi Hj) in Hv.
    edestruct pick_cases as [Heq|(rec' & _ & _ & Heq)];
      rewrite Heq in Hv; done.
Qed.

Lemma keyAt_keyString_iff vals key p s :
  keyAt vals key p = Some (VStr s) ↔
  ∃ e, vals !! p = Some e ∧ keyString key e = Some s.
Proof.
  unfold keyAt, keyString. split.
  - destruct (vals !! p) as [[| |r]|]; try done. intros [= Hk].
    exists (ERec r). simpl. by rewrite Hk.
  - intros (e & -> & He). destruct e as [| |r]; try done. simpl in He.
    by destruct (aget r key); simplify_eq/=.
Qed.

Lemma hashAxis_lookup key vals hash s p :
  hashAxis key vals 0 ∅ = Ok hash →
  hash !! s = Some p ↔
  s ≠ "__proto__" ∧
  keyAt vals key p = Some (VStr s) ∧
  ∀ p', p < p' → keyAt vals key p' ≠ Some (VStr s).
Proof.
  intros Hh. rewrite (hashAxis_index _ _ _ Hh s p). split.
  - intros (Hne & Hk & Hlast). split_and!; [done| |].
    + by apply keyAt_keyString_iff.
    + intros p' Hlt (e' & Hp' & He')%keyAt_keyString_iff.
      by apply (Hlast p' e').
  - intros (Hne & Hk & Hlast). split; [done|]. split.
    + by apply keyAt_keyString_iff.
    + intros p' e' Hlt Hp' He'. apply (Hlast p' Hlt).
      apply keyAt_keyString_iff. eauto.
Qed.

Lemma buildHashes_declared h rowKey vrk colKey vck st :
  data_rows (options h) = true → data_cols (options h) = true →
  buildHashes h rowKey vrk colKey vck = Ok st →
  hashAxis rowKey (values (rows h)) 0 ∅ = Ok (rowHash st) ∧
  hashAxis colKey (values (cols h)) 0 ∅ = Ok (colHash st) ∧
  rowsValues st = values (rows h) ∧ colsValues st = values (cols h).
Proof.
  intros Hr Hc. unfold buildHashes. rewrite Hr, Hc. simpl.
  destruct (hashAxis rowKey _ 0 ∅) as [rh|]; [|done].
  destruct (hashAxis colKey _ 0 ∅) as [ch|]; [|done].
  by intros [= <-].
Qed.

(** X11. With both annotation tables declared, take a row that no later row
    of the row table repeats the key of, and such a column, the key of
    neither being [__proto__]: their cell is [null] exactly when no record
    of the cell table names the key of the row together with the key of the
    column. *)
Theorem declared_missing_iff_absent h h' i j :
  let r := inferRow h in
  let c := inferCol h r in
  data_rows (options h) = true →
  data_cols (options h) = true →
  read false h = Ok h' →
  i < rowCount h' → j < columnCount h' →
  (∀ i', i < i' → rowKeyAt h (axisKey r) i' ≠ rowKeyAt h (axisKey r) i) →
  (∀ j', j < j' → colKeyAt h (axisKey c) j' ≠ colKeyAt h (axisKey c) j) →
  rowKeyAt h (axisKey r) i ≠ Some (VStr "__proto__") →
  colKeyAt h (axisKey c) j ≠ Some (VStr "__proto__") →
  valueAt h' i j = Some ENull ↔
  ∀ rec, ERec rec ∈ values (cells h) →
    ¬ (rowKeyAt h (axisKey r) i
       = Some (VStr (propKey (aget rec (valuesKey r)))) ∧
       colKeyAt h (axisKey c) j
       = Some (VStr (propKey (aget rec (valuesKey c))))).
Proof.
  intros r c. subst r c. intros Hr Hc (st & Hb & ->)%read_Ok_inv.
  destruct (buildHashes_declared _ _ _ _ _ _ Hr Hc Hb)
    as (Hrh & Hch & Hrv & Hcv).
  unfold rowCount, columnCount, rowKeyAt, colKeyAt.
  cbn [withAxes rows cols values]. intros Hi Hj Hlasti Hlastj Hpi Hpj.
  split.
  - intros Hnull rec Hin [Hkr Hkc].
    apply list_elem_of_lookup in Hin as [n Hn].
    destruct (resolving_record h st Hb n rec i j Hn) as (rec' & Hv & _).
    + apply (hashAxis_lookup _ _ _ _ _ Hrh). split_and!; [|done|].
      * intros Hp. apply Hpi. by rewrite Hkr, Hp.
      * intros p' Hlt Hp'. apply (Hlasti p' Hlt). congruence.
    + apply (hashAxis_lookup _ _ _ _ _ Hch). split_and!; [|done|].
      * intros Hp. apply Hpj. by rewrite Hkc, Hp.
      * intros p' Hlt Hp'. apply (Hlastj p' Hlt). congruence.
    + congruence.
  - intros Habsent.
    destruct (valueAt _ i j) as [[| |rec]|] eqn:Hv.
    + exfalso. rewrite (valueAt_read h st i j Hb Hi Hj) in Hv.
      edestruct pick_cases as [Heq|(rec' & _ & _ & Heq)];
        rewrite Heq in Hv; done.
    + done.
    + exfalso.
      destruct (stored_record h st Hb i j rec Hj Hv) as (_ & Hin & Hih & Hjh).
      apply (Habsent rec Hin). split.
      * by apply (hashAxis_lookup _ _ _ _ _ Hrh) in Hih as (_ & ? & _).
      * by apply (hashAxis_lookup _ _ _ _ _ Hch) in Hjh as (_ & ? & _).
    + exfalso. rewrite (valueAt_read h st i j Hb Hi Hj) in Hv.
      edestruct pick_cases as [Heq|(rec' & _ & _ & Heq)];
        rewrite Heq in Hv; done.
Qed.

(** X12. With both annotation tables declared, a row whose key a later row
    of the row table repeats receives nothing: every cell of it is [null],
    the records of that key going to the last row that has it. The same
    holds of the columns. *)
Theorem shadowed_axis_records_stay_empty h h' i j :
  let r := inferRow h in
  let c := inferCol h r in
  data_rows (options h) = true →
  data_cols (options h) = true →
  read false h = Ok h' →
  i < rowCount h' → j < columnCount h' →
  (∃ i', i < i' ∧ rowKeyAt h (axisKey r) i' = rowKeyAt h (axisKey r) i) ∨
  (∃ j', j < j' ∧ colKeyAt h (axisKey c) j' = colKeyAt h (axisKey c) j) →
  valueAt h' i j = Some ENull.
Proof.
  intros r c. subst r c. intros Hr Hc (st & Hb & ->)%read_Ok_inv.
  destruct (buildHashes_declared _ _ _ _ _ _ Hr Hc Hb)
    as (Hrh & Hch & Hrv & Hcv).
  unfold rowCount, columnCount, rowKeyAt, colKeyAt.
  cbn [withAxes rows cols values]. intros Hi Hj Hshadow.
  destruct (valueAt _ i j) as [[| |rec]|] eqn:Hv.
  - exfalso. rewrite (valueAt_read h st i j Hb Hi Hj) in Hv.
    edestruct pick_cases as [Heq|(rec' & _ & _ & Heq)];
      rewrite Heq in Hv; done.
  - done.
  - exfalso.
    destruct (stored_record h st Hb i j rec Hj Hv) as (_ & _ & Hih & Hjh).
    apply (hashAxis_lookup _ _ _ _ _ Hrh) in Hih as (_ & Hki & Hlasti).
    apply (hashAxis_lookup _ _ _ _ _ Hch) in Hjh as (_ & Hkj & Hlastj).
    destruct Hshadow as [(i' & Hlt & Heq)|(j' & Hlt & Heq)].
    + apply (Hlasti i' Hlt). congruence.
    + apply (Hlastj j' Hlt). congruence.
  - exfalso. rewrite (valueAt_read h st i j Hb Hi Hj) in Hv.
    edestruct pick_cases as [Heq|(rec' & _ & _ & Heq)];
      rewrite Heq in Hv; done.
Qed.

(** * Beyond the claims: the names a hash inherits *)

Lemma buildHashes_plain h rowKey vrk colKey vck st :
  buildHashes h rowKey vrk colKey vck = Ok st →
  (∀ s p, rowHash st !! s = Some p →
     s ≠ "__proto__" ∧
     (data_rows (options h) && data_cols (options h) = false →
      inherited s = false)) ∧
  (∀ s p, colHash st !! s = Some p →
     s ≠ "__proto__" ∧
     (data_rows (options h) && data_cols (options h) = false →
      inherited s = false)).
Proof.
  intros Hb.
  destruct (data_rows (options h) && data_cols (options h)) eqn:Hmode.
  - apply andb_true_iff in Hmode as [Hr Hc].
    destruct (buildHashes_declared _ _ _ _ _ _ Hr Hc Hb) as (Hrh & Hch & _).
    split; intros s p Hs.
    + by apply (hashAxis_index _ _ _ Hrh) in Hs as [? _].
    + by apply (hashAxis_index _ _ _ Hch) in Hs as [? _].
  - destruct (buildHashes_discovery h _ _ _ _ st Hmode Hb)
      as (_ & _ & _ & HnR & HnC).
    assert (∀ vk hash n s p,
              numbered ∅ hash n (indexed vk [] (values (cells h))) →
              hash !! s = Some p → inherited s = false) as Hplain.
    { intros vk hash n s p Hn Hs.
      apply (numbered_from_empty _ _ _ Hn) in Hs as (k & r & Hk & _).
      by apply indexed_fresh in Hk as [_ ?]. }
    split; intros s p Hs.
    + pose proof (Hplain _ _ _ _ _ HnR Hs) as Hi. split; [|done].
      intros ->. by rewrite inherited_proto in Hi.
    + pose proof (Hplain _ _ _ _ _ HnC Hs) as Hi. split; [|done].
      intros ->. by rewrite inherited_proto in Hi.
Qed.

(** X16. The hashes are plain objects, and the names they inherit from
    [Object.prototype] are closed to the pass over the cell table: when an
    annotation table is missing, no such name gets a position, the records
    that bring a key are those that [indexed] lists (a key met before, or an
    inherited name, brings nothing), each at the position that follows the
    axis records before it. Whatever the tables, [__proto__] is in no
    hash. *)
Theorem inherited_names_never_indexed h rowKey vrk colKey vck st :
  let rf := match rows_annotations (options h) with
            | Some rowAnn => map INum rowAnn
            | None => [vrk]
            end in
  let cf := match cols_annotations (options h) with
            | Some colAnn => map INum colAnn
            | None => [vck]
            end in
  let foundR := indexed vrk [] (values (cells h)) in
  let foundC := indexed vck [] (values (cells h)) in
  buildHashes h rowKey vrk colKey vck = Ok st →
  rowHash st !! "__proto__" = None ∧
  colHash st !! "__proto__" = None ∧
  (data_rows (options h) && data_cols (options h) = false →
   (∀ s, inherited s = true →
      rowHash st !! s = None ∧ colHash st !! s = None) ∧
   rowsValues st
   = values (rows h) ++ map (λ sr, ERec (map (aget sr.2) rf)) foundR ∧
   colsValues st
   = values (cols h) ++ map (λ sr, ERec (map (aget sr.2) cf)) foundC ∧
   (∀ s p, rowHash st !! s = Some p ↔
      ∃ k r, foundR !! k = Some (s, r) ∧ p = rowCount h + k) ∧
   (∀ s p, colHash st !! s = Some p ↔
      ∃ k r, foundC !! k = Some (s, r) ∧ p = columnCount h + k)).
Proof.
  intros rf cf foundR foundC Hb.
  destruct (buildHashes_plain _ _ _ _ _ _ Hb) as [HR HC].
  split_and!.
  - destruct (rowHash st !! "__proto__") as [p|] eqn:Hp; [|done].
    by destruct (HR _ _ Hp) as [? _].
  - destruct (colHash st !! "__proto__") as [p|] eqn:Hp; [|done].
    by destruct (HC _ _ Hp) as [? _].
  - intros Hmode.
    destruct (buildHashes_discovery h _ _ _ _ st Hmode Hb)
      as (_ & Hrv & Hcv & HnR & HnC).
    split_and!; [|done|done| |].
    + intros s Hs. split.
      * destruct (rowHash st !! s) as [p|] eqn:Hp; [|done].
        destruct (HR _ _ Hp) as [_ Hi]. by rewrite (Hi Hmode) in Hs.
      * destruct (colHash st !! s) as [p|] eqn:Hp; [|done].
        destruct (HC _ _ Hp) as [_ Hi]. by rewrite (Hi Hmode) in Hs.
    + by apply numbered_from_empty.
    + by apply numbered_from_empty.
Qed.

(** X17. No record that [read] leaves in the matrix has [__proto__] for its
    row key or its column key, and when an annotation table is missing none
    has a key that is a name inherited from [Object.prototype]: the records
    of such keys are dropped. *)
Theorem inherited_keys_never_stored h h' i j rec :
  let r := inferRow h in
  let c := inferCol h r in
  read false h = Ok h' →
  j < columnCount h' →
  valueAt h' i j = Some (ERec rec) →
  propKey (aget rec (valuesKey r)) ≠ "__proto__" ∧
  propKey (aget rec (valuesKey c)) ≠ "__proto__" ∧
  (data_rows (options h) && data_cols (options h) = false →
   inherited (propKey (aget rec (valuesKey r))) = false ∧
   inherited (propKey (aget rec (valuesKey c))) = false).
Proof.
  intros r c. subst r c. intros (st & Hb & ->)%read_Ok_inv Hj Hv.
  destruct (stored_record h st Hb i j rec Hj Hv) as (_ & _ & Hi & Hjh).
  destruct (buildHashes_plain _ _ _ _ _ _ Hb) as [HR HC].
  destruct (HR _ _ Hi) as [HpR HiR]. destruct (HC _ _ Hjh) as [HpC HiC].
  split_and!; [done|done|]. intros Hmode. split; [by apply HiR|by apply HiC].
Qed.

(** * Beyond the claims: from the file to the matrix *)

Lemma split_cons c s : ∃ l ls, split c s = l :: ls.
Proof.
  induction s as [|a t (l & ls & IH)]; simpl; [eauto|].
  case_decide; [eauto|]. rewrite IH. eauto.
Qed.

Section files.
Variable splitCSV : string → string → list string.

Lemma readLines_values sep file t :
  values (readLines splitCSV sep file t)
  = values t ++ map (λ line, ERec (fieldsOfLine splitCSV sep line))
                    (dataLines file) ∧
  ready (readLines splitCSV sep file t) = ready t.
Proof.
  unfold readLines, dataLines, laterLines.
  destruct (split_cons LF (replaceFirst CR file)) as (l & ls & Hl).
  unfold linesOf. rewrite Hl, eachLine_first. by simpl.
Qed.

Lemma records_of_lines (recs0 : list entry) sep lines :
  (∀ e, e ∈ recs0 → isRecord e = true) →
  ∃ recs : list (list value),
    recs0 ++ map (λ line, ERec (fieldsOfLine splitCSV sep line)) lines
    = map ERec recs ∧
    length recs = length recs0 + length lines.
Proof.
  intros Hrec. induction recs0 as [|e t IH].
  - exists (map (fieldsOfLine splitCSV sep) lines). simpl.
    by rewrite !length_map, <- list_fmap_compose.
  - destruct IH as (recs & Heq & Hlen); [intros e' He'; apply Hrec; by right|].
    destruct e as [| |r]; try (by specialize (Hrec _ (list_elem_of_here _ _))).
    exists (r :: recs). simpl. rewrite Heq. split; [done|lia].
Qed.

(** X13. The callback of [CdmMatrixReader] never fails on what it reads:
    on a heatmap whose cell table holds records only (none, before the first
    load), it completes for every file and every separator, sets
    [cells.ready], and adds one row for each record of the cell table, those
    already there and one for each later line of the file that is neither
    empty nor a comment. *)
Theorem readCdmFile_completes sep file h :
  (∀ e, e ∈ values (cells h) → isRecord e = true) →
  ∃ h', readCdmFile splitCSV sep file h = Ok h' ∧
    ready (cells h') = true ∧
    rowCount h'
    = rowCount h + length (values (cells h)) + length (dataLines file) ∧
    length (values (cells h'))
    = (length (values (cells h)) + length (dataLines file)) * columnCount h'.
Proof.
  intros Hrec. unfold readCdmFile, readCdm. cbn [withCells rows cols cells].
  destruct (readLines_values sep file (cells h)) as [Hvals _].
  destruct (records_of_lines (values (cells h)) sep (dataLines file) Hrec)
    as (recs & Heq & Hlen).
  rewrite Hvals, Heq. cbn [values].
  destruct (cdmRows_records
              (length (cdmCols (header (readLines splitCSV sep file (cells h)))
                         (values (cols h))))
              recs (values (rows h)) []) as (cv' & -> & Hcv & _).
  eexists. split; [done|]. unfold rowCount, columnCount.
  cbn [rows cols cells values ready]. split_and!; [done| |].
  - rewrite length_app, length_map. lia.
  - rewrite app_nil_l, Hcv. by rewrite Hlen.
Qed.

Lemma string_field fs k :
  is_Some (toString (aget (map VStr fs) (INum (Z.of_nat k)))) ↔ k < length fs.
Proof.
  unfold aget. replace (Z.of_nat k <? 0)%Z with false
    by (symmetry; apply Z.ltb_ge; lia).
  rewrite Nat2Z.id, list_lookup_fmap. split.
  - destruct (fs !! k) eqn:Hk; [|by intros [? ?]].
    intros _. by apply lookup_lt_Some in Hk.
  - intros [s Hs]%lookup_lt_is_Some. rewrite Hs. simpl. eauto.
Qed.

(** X14. With no annotation table and no list of annotation fields, on a
    heatmap whose cell table is empty, the callback of [TsvMatrixReader]
    completes exactly when every later line of the file that is neither
    empty nor a comment splits into two fields at least: one line with a
    single field ends the load in a [TypeError], and [cells.ready] stays
    unset. *)
Theorem readMatrixFile_completes_iff sep file h :
  data_rows (options h) = false →
  rows_annotations (options h) = None →
  data_cols (options h) = false →
  cols_annotations (options h) = None →
  values (cells h) = [] →
  ((∃ h', readMatrixFile splitCSV sep false file h = Ok h') ↔
   ∀ line, line ∈ dataLines file → 2 ≤ length (splitCSV sep line)) ∧
  (∀ h', readMatrixFile splitCSV sep false file h = TypeError h' →
     ready (cells h') = ready (cells h)).
Proof.
  intros Hdr Har Hdc Hac Hempty. unfold readMatrixFile.
  set (h0 := withCells h (readLines splitCSV sep file (cells h))).
  assert (inferRow h0
          = Inferred (INum 0) (INum 1) [aget (header (cells h0)) (INum 1)]
              (header (cells h0))) as Hrow.
  { unfold inferRow. subst h0. cbn [withCells options]. by rewrite Hdr, Har. }
  assert (inferCol h0 (inferRow h0)
          = Inferred (INum 0) (INum 0) [aget (header (cells h0)) (INum 0)]
              (header (cells h0))) as Hcol.
  { rewrite Hrow. unfold inferCol. subst h0. cbn [withCells options].
    by rewrite Hdc, Hac. }
  assert (values (cells h0)
          = map (λ line, ERec (fieldsOfLine splitCSV sep line))
                (dataLines file)) as Hvals.
  { subst h0. cbn [withCells cells].
    destruct (readLines_values sep file (cells h)) as [-> _].
    by rewrite Hempty. }
  split.
  - rewrite read_Ok_iff, Hcol, Hrow. cbn [axisKey valuesKey].
    unfold buildHashes. replace (options h0) with (options h) by done.
    rewrite Hdr, Har, Hac. cbn [andb]. rewrite discoverAll_Ok_iff, Hvals.
    split.
    + intros Hkeys line Hline.
      destruct (Hkeys (fieldsOfLine splitCSV sep line)) as [H1 _].
      { apply list_elem_of_fmap. by exists line. }
      by apply (string_field _ 1) in H1.
    + intros Hlines rec (line & [= ->] & Hline)%list_elem_of_fmap.
      specialize (Hlines line Hline). unfold fieldsOfLine. split.
      * apply (string_field _ 1). lia.
      * apply (string_field _ 0). lia.
  - intros h'. unfold read.
    destruct (buildHashes h0 _ _ _ _); [done|]. intros [= <-].
    cbn [withAxes cells ready]. subst h0. cbn [withCells cells].
    by destruct (readLines_values sep file (cells h)) as [_ ->].
Qed.
End files.

(** * Beyond the claims: the properties on the samples *)

Ltac all_without :=
  repeat first
    [ apply Forall_nil_2 | apply Forall_cons_2 | split | discriminate
    | exact I ].

Lemma readLines_lines_witness :
  readLines charFields "," (joinLines sampleLines) emptyTable
  = Table (strings ["c"; "r"; "v"])
      [ERec (strings ["1"; "2"; "3"]); ERec (strings ["4"; "5"; "6"])] false.
Proof.
  unfold sampleLines.
  rewrite (readLines_lines charFields "," "c,r,v"
             ["1,2,3"; "#x"; ""; "4,5,6"] emptyTable).
  - reflexivity.
  - all_without.
  - all_without.
Defined.

Lemma readLines_crlf_witness :
  readLines charFields "," (joinCRLF ["ab"; "cd"; ""; "ef"]) emptyTable
  = Table (strings ["a"; "b"])
      [ERec [VStr "c"; VStr "d"; VStr (String CR EmptyString)];
       ERec [VStr (String CR EmptyString)]; ERec (strings ["e"; "f"])] false.
Proof.
  destruct (readLines_crlf charFields "," "ab" ["cd"; ""; "ef"] emptyTable)
    as [-> _].
  - all_without.
  - all_without.
  - discriminate.
  - reflexivity.
Defined.

Lemma annotation_fields_relocated_witness :
  let r := inferRow listedSample in
  axisHeader r !! 0 = Some (VStr "c") ∧
  axisHeader r !! 2 = Some VUndef ∧
  axisHeader r !! 3 = Some VUndef ∧
  aget (cellsHeader r) (INum 1) = VStr "b" ∧
  axisHeader (inferCol listedSample r) !! 1 = Some VUndef.
Proof.
  intros r.
  destruct (annotation_fields_relocated listedSample) as [Hrow Hcol].
  destruct (Hrow [2; 0; 2; 5]%Z eq_refl eq_refl) as (_ & _ & _ & Hax & Hch).
  destruct (Hcol [1; 0]%Z r eq_refl eq_refl) as (_ & _ & _ & Hcax & _).
  split_and!.
  - apply (Hax 0 2%Z eq_refl).
  - apply (Hax 2 2%Z eq_refl).
  - apply (Hax 3 5%Z eq_refl).
  - apply (Hch 1%Z).
  - apply (Hcax 1 0%Z eq_refl).
Defined.

Lemma discovery_completes_iff_witness :
  ∃ h', read false discoverySample = Ok h'.
Proof.
  apply (discovery_completes_iff discoverySample); [reflexivity|].
  intros rec Hrec. vm_compute in Hrec.
  repeat (apply elem_of_cons in Hrec as [Hrec|Hrec];
          [try discriminate; injection Hrec as ->; split; by eexists|]).
  by apply elem_of_nil in Hrec.
Defined.

Lemma declared_completes_iff_witness :
  ∃ h', read false declaredSample = Ok h'.
Proof.
  destruct (declared_completes_iff declaredSample eq_refl eq_refl)
    as (Hiff & _ & _).
  apply Hiff. split.
  - intros e He. vm_compute in He.
    repeat (apply elem_of_cons in He as [He|He]; [subst e; by eexists|]).
    by apply elem_of_nil in He.
  - intros e He. vm_compute in He.
    repeat (apply elem_of_cons in He as [He|He]; [subst e; by eexists|]).
    by apply elem_of_nil in He.
Defined.

Lemma read_preserves_witness :
  ∃ h', read false shortRecordSample = TypeError h' ∧
    ready (cells h') = false ∧
    values (cells h') = values (cells shortRecordSample).
Proof.
  exists (resultOf (read false shortRecordSample)). split; [vm_compute; reflexivity|].
  destruct (read_preserves shortRecordSample
              (resultOf (read false shortRecordSample)))
    as (_ & _ & _ & _ & _ & _ & Hab).
  - right. vm_compute. reflexivity.
  - destruct Hab as [Hready Hvals]; [vm_compute; reflexivity|].
    split; [exact Hready | exact Hvals].
Defined.

Lemma stored_cell_keys_witness :
  ∃ h', read false declaredSample = Ok h' ∧
    rowKeyAt h' (INum 0) 2 = Some (VStr "b") ∧
    colKeyAt h' (INum 1) 1 = Some (VStr "c2").
Proof.
  exists (resultOf (read false declaredSample)). split; [vm_compute; reflexivity|].
  destruct (stored_cell_keys declaredSample
              (resultOf (read false declaredSample)) 2 1
              (strings ["b"; "c2"; "6"])) as (_ & Hrow & Hcol).
  - reflexivity.
  - vm_compute. reflexivity.
  - vm_compute. lia.
  - vm_compute. reflexivity.
  - split; [exact Hrow | exact Hcol].
Defined.

Lemma discovery_keeps_every_pair_witness :
  ∃ h', read false discoverySample = Ok h' ∧
    ∃ i j rec', valueAt h' i j = Some (ERec rec') ∧
      aget rec' (INum 1) = VStr "r2" ∧ aget rec' (INum 0) = VStr "c1".
Proof.
  exists (resultOf (read false discoverySample)). split; [vm_compute; reflexivity|].
  destruct (discovery_keeps_every_pair discoverySample
              (resultOf (read false discoverySample))
              (strings ["c1"; "r2"; "6"]))
    as (i & j & rec' & _ & _ & Hv & _ & Hr & Hc).
  - reflexivity.
  - vm_compute. reflexivity.
  - vm_compute. do 2 right. by left.
  - reflexivity.
  - reflexivity.
  - exists i, j, rec'. split; [exact Hv|]. split; [exact Hr | exact Hc].
Defined.

Lemma missing_iff_absent_witness :
  ∃ h', read false discoverySample = Ok h' ∧ valueAt h' 1 1 = Some ENull.
Proof.
  exists (resultOf (read false discoverySample)). split; [vm_compute; reflexivity|].
  apply (missing_iff_absent discoverySample
           (resultOf (read false discoverySample)) 1 1);
    [reflexivity|reflexivity|vm_compute; reflexivity
    |vm_compute; lia|vm_compute; lia|vm_compute; lia|vm_compute; lia|].
  intros rec Hrec [Hr Hc]. vm_compute in Hrec, Hr, Hc.
  repeat (apply elem_of_cons in Hrec as [Hrec|Hrec];
          [try discriminate; injection Hrec as ->; discriminate|]).
  by apply elem_of_nil in Hrec.
Defined.

Lemma earlier_axis_records_stay_empty_witness :
  ∃ h', read false mixedSample = Ok h' ∧
    rowKeyAt h' (INum 0) 0 = Some (VStr "r1") ∧
    valueAt h' 0 0 = Some ENull ∧ valueAt h' 0 1 = Some ENull.
Proof.
  exists (resultOf (read false mixedSample)). split; [vm_compute; reflexivity|]. split; [reflexivity|].
  split.
  - apply (earlier_axis_records_stay_empty mixedSample
             (resultOf (read false mixedSample)) 0 0);
      [reflexivity|vm_compute; reflexivity|vm_compute; lia|vm_compute; lia|].
    left. vm_compute. lia.
  - apply (earlier_axis_records_stay_empty mixedSample
             (resultOf (read false mixedSample)) 0 1);
      [reflexivity|vm_compute; reflexivity|vm_compute; lia|vm_compute; lia|].
    left. vm_compute. lia.
Defined.

Lemma declared_missing_iff_absent_witness :
  ∃ h', read false declaredSample = Ok h' ∧ valueAt h' 2 0 = Some ENull.
Proof.
  exists (resultOf (read false declaredSample)). split; [vm_compute; reflexivity|].
  apply (declared_missing_iff_absent declaredSample
           (resultOf (read false declaredSample)) 2 0);
    [reflexivity|reflexivity|vm_compute; reflexivity
    |vm_compute; lia|vm_compute; lia| | |by vm_compute|by vm_compute|].
  - intros [|[|[|i']]] Hlt; try lia. by vm_compute.
  - intros [|[|j']] Hlt; try lia; by vm_compute.
  - intros rec Hrec [Hr Hc]. vm_compute in Hrec.
    repeat (apply elem_of_cons in Hrec as [Hrec|Hrec];
            [injection Hrec as ->; vm_compute in Hc; discriminate|]).
    by apply elem_of_nil in Hrec.
Defined.

Lemma shadowed_axis_records_stay_empty_witness :
  ∃ h', read false declaredSample = Ok h' ∧
    valueAt h' 0 0 = Some ENull ∧ valueAt h' 0 1 = Some ENull.
Proof.
  exists (resultOf (read false declaredSample)). split; [vm_compute; reflexivity|]. split.
  - apply (shadowed_axis_records_stay_empty declaredSample
             (resultOf (read false declaredSample)) 0 0);
      [reflexivity|reflexivity|vm_compute; reflexivity
      |vm_compute; lia|vm_compute; lia|].
    left. exists 1. split; [lia|reflexivity].
  - apply (shadowed_axis_records_stay_empty declaredSample
             (resultOf (read false declaredSample)) 0 1);
      [reflexivity|reflexivity|vm_compute; reflexivity
      |vm_compute; lia|vm_compute; lia|].
    left. exists 1. split; [lia|reflexivity].
Defined.

Lemma inherited_names_never_indexed_witness :
  ∃ st, buildHashes inheritedSample (INum 0) (INum 1) (INum 0) (INum 0)
        = Ok st ∧
    rowHash st !! "constructor" = None ∧
    rowsValues st = [ERec [VStr "r2"]] ∧
    colsValues st = [ERec [VStr "c1"]].
Proof.
  exists (match buildHashes inheritedSample (INum 0) (INum 1) (INum 0)
                  (INum 0) with
          | Ok st | TypeError st => st
          end).
  split; [vm_compute; reflexivity|].
  destruct (inherited_names_never_indexed inheritedSample (INum 0) (INum 1)
              (INum 0) (INum 0)
              (match buildHashes inheritedSample (INum 0) (INum 1) (INum 0)
                       (INum 0) with
               | Ok st | TypeError st => st
               end)) as (_ & _ & Hdisc).
  - vm_compute. reflexivity.
  - destruct (Hdisc eq_refl) as (Hnone & Hrows & Hcols & _).
    split; [by apply Hnone|]. split; [exact Hrows | exact Hcols].
Defined.

Lemma inherited_keys_never_stored_witness :
  ∃ h', read false inheritedSample = Ok h' ∧
    valueAt h' 0 0 = Some (ERec (strings ["c1"; "r2"; "6"])) ∧
    inherited "r2" = false ∧ inherited "c1" = false.
Proof.
  exists (resultOf (read false inheritedSample)).
  split; [vm_compute; reflexivity|]. split; [reflexivity|].
  destruct (inherited_keys_never_stored inheritedSample
              (resultOf (read false inheritedSample)) 0 0
              (strings ["c1"; "r2"; "6"])) as (_ & _ & Hplain).
  - vm_compute. reflexivity.
  - vm_compute. lia.
  - reflexivity.
  - exact (Hplain eq_refl).
Defined.

(** The record under the row label [constructor] is dropped: one row, one
    column, one cell. *)
Example inherited_label_dropped :
  ∃ h', read false inheritedSample = Ok h' ∧
    values (rows h') = [ERec [VStr "r2"]] ∧
    values (cols h') = [ERec [VStr "c1"]] ∧
    values (cells h') = [ERec (strings ["c1"; "r2"; "6"])].
Proof. eexists. split; [vm_compute; reflexivity|]. by vm_compute. Qed.

(** The declared row under the key [__proto__] is not indexed: its cell
    stays [null] though a record of the cell table names it. *)
Example proto_row_stays_empty :
  ∃ h', read false protoSample = Ok h' ∧
    rowKeyAt h' (INum 0) 0 = Some (VStr "__proto__") ∧
    values (cells h') = [ENull; ENull].
Proof. eexists. split; [vm_compute; reflexivity|]. by vm_compute. Qed.

Lemma readCdmFile_completes_witness :
  ∃ h', readCdmFile charFields "," (joinLines sampleLines) emptyHeatmap
        = Ok h' ∧
    ready (cells h') = true ∧ rowCount h' = 2.
Proof.
  destruct (readCdmFile_completes charFields "," (joinLines sampleLines)
              emptyHeatmap) as (h' & Hread & Hready & Hrows & _).
  - intros e He. by apply elem_of_nil in He.
  - exists h'. split; [exact Hread|]. split; [exact Hready|].
    rewrite Hrows. reflexivity.
Defined.

Lemma readMatrixFile_completes_iff_witness :
  ∃ h', readMatrixFile charFields "," false (joinLines sampleLines)
          emptyHeatmap = Ok h'.
Proof.
  destruct (readMatrixFile_completes_iff charFields ","
              (joinLines sampleLines) emptyHeatmap
              eq_refl eq_refl eq_refl eq_refl eq_refl) as [Hiff _].
  apply Hiff. intros line Hline. vm_compute in Hline.
  repeat (apply elem_of_cons in Hline as [Hline|Hline];
          [subst line; vm_compute; lia|]).
  by apply elem_of_nil in Hline.
Defined.

(** * Beyond the claims: the table reader *)

Section table_reader.
Variable splitCSV : string → string → list string.

(** X15. The callback of [TsvTableReader] always sets [ready]. It replaces
    the header only when the first line of the file is neither empty nor a
    comment, and it never clears the records: those of the later lines come
    after the records the table had, so that loading a file twice leaves its
    records twice. *)
Theorem readTable_appends sep file result :
  ∃ first,
    linesOf file = first :: laterLines file ∧
    readTable splitCSV sep file result
    = Table (if isData first then fieldsOfLine splitCSV sep first
             else header result)
        (values result ++ recordsOf splitCSV sep (laterLines file)) true ∧
    values (readTable splitCSV sep file
              (readTable splitCSV sep file result))
    = values result ++ recordsOf splitCSV sep (laterLines file)
      ++ recordsOf splitCSV sep (laterLines file).
Proof.
  unfold readTable, readLines, laterLines.
  destruct (split_cons LF (replaceFirst CR file)) as (l & ls & Hl).
  unfold linesOf. rewrite Hl. exists l. rewrite !eachLine_first.
  cbn [tail header values ready]. split_and!; [done|done|].
  by rewrite <- app_assoc.
Qed.
End table_reader.
